(** * eactx: a lifecycle wrapper around Go's [context.Context]

    Shallow embedding of [context.go] (the current implementation, the one
    the tests exercise) and of the monitor of [main.go] (the earlier draft
    of the same package), together with the properties of the lifecycle
    state machine, of the callback dispatch and of the cancel-and-wait
    protocol.

    The program is concurrent: every constructor and every [Reset] starts a
    goroutine running [startMonitoring], and [CancelWithWait] blocks on a
    condition variable.  It is modelled as an interleaving semantics: a
    [World] holds the heap of [Context] objects, the store of cancellation
    tokens, the monitor goroutines and the goroutines blocked in
    [CancelWithWait]; a [label] names the next thing that happens (a public
    method call, one step of a goroutine, or the collaborator settling a
    token) and [step] executes it.  A schedule is a list of labels. *)

From stdpp Require Import base option list strings.
From Stdlib Require Import ZArith Lia.

Set Default Proof Using "Type".

(** ** Data model *)

(** [type State int] with its five [iota] constants. *)
Inductive State := Created | Running | Canceled | Deadlined | Finished.

#[global] Instance State_eq_dec : EqDecision State.
Proof. solve_decision. Defined.

(** The zero value of [State]: what [var newState State] holds. *)
Definition zero_State : State := Created.

(** Go [error] values as far as the monitor inspects them: the two
    sentinels of package [context], any other error, an error wrapping
    another one ([Unwrap() error]) and a joined error ([Unwrap() []error]). *)
Inductive error :=
| context_Canceled
| context_DeadlineExceeded
| ErrOther (tag : nat)
| ErrWrap (tag : nat) (inner : error)
| ErrJoin (e1 e2 : error).

#[global] Instance error_eq_dec : EqDecision error.
Proof. solve_decision. Defined.

(** [errors.Is] on a non-nil error: equality with the target, or the same
    on what the error unwraps to, depth first. *)
Fixpoint error_is (e target : error) : bool :=
  bool_decide (e = target) ||
  match e with
  | ErrWrap _ inner => error_is inner target
  | ErrJoin e1 e2 => error_is e1 target || error_is e2 target
  | _ => false
  end.

(** [errors.Is(err, target)] where [err] may be nil ([None]). *)
Definition errors_Is (err : option error) (target : error) : bool :=
  match err with
  | None => false
  | Some e => error_is e target
  end.

(** A [func()] value is identified by a number; a nil func is [None].
    Invoking a callback is recorded in the world's log; callbacks are taken
    not to call back into the object nor to panic. *)
Definition callback := nat.

(** Non-nil comparable interface values (what the collaborator accepts as
    keys) and [interface{}] values ([None] is nil). *)
Inductive value := VInt (z : Z) | VStr (s : string).

#[global] Instance value_eq_dec : EqDecision value.
Proof. solve_decision. Defined.

Definition any := option value.

(** The [context.Context] held in the field [ctx]: the cancellation cell it
    is derived from and the chain of [WithValue] pairs above and below it,
    innermost first. *)
Record context_Context := {
  tok : nat;
  values : list (value * any)
}.

(** A parent context as passed to a constructor or to [Reset]: its [Err()]
    at that moment and its value chain. *)
Record Parent := {
  p_err : option error;
  p_values : list (value * any)
}.

Definition Background : Parent := {| p_err := None; p_values := [] |}.

(** [type Context struct].  [mu] is [true] while the mutex is held across
    steps (only [CancelWithWait] does that, between its test of [done] and
    [cond.Wait] releasing the lock); [cond] is [None] for a nil pointer and
    [Some c] for the condition variable [c]. *)
Record Context := {
  ctx : context_Context;
  cancel : nat;
  mu : bool;
  cond : option nat;
  done : bool;
  state : State;
  onDone : list callback;
  onCancel : list callback;
  onTimeout : list callback
}.

(** ** Methods that touch one object only *)

Definition setState (cw : Context) (s : State) : Context :=
  {| ctx := ctx cw; cancel := cancel cw; mu := mu cw; cond := cond cw;
     done := done cw; state := s;
     onDone := onDone cw; onCancel := onCancel cw; onTimeout := onTimeout cw |}.

Definition set_done (cw : Context) (b : bool) : Context :=
  {| ctx := ctx cw; cancel := cancel cw; mu := mu cw; cond := cond cw;
     done := b; state := state cw;
     onDone := onDone cw; onCancel := onCancel cw; onTimeout := onTimeout cw |}.

Definition set_mu (cw : Context) (b : bool) : Context :=
  {| ctx := ctx cw; cancel := cancel cw; mu := b; cond := cond cw;
     done := done cw; state := state cw;
     onDone := onDone cw; onCancel := onCancel cw; onTimeout := onTimeout cw |}.

Definition OnDone (cw : Context) (f : option callback) : Context :=
  match f with
  | Some g =>
      {| ctx := ctx cw; cancel := cancel cw; mu := mu cw; cond := cond cw;
         done := done cw; state := state cw;
         onDone := onDone cw ++ [g];
         onCancel := onCancel cw; onTimeout := onTimeout cw |}
  | None => cw
  end.

Definition OnCancel (cw : Context) (f : option callback) : Context :=
  match f with
  | Some g =>
      {| ctx := ctx cw; cancel := cancel cw; mu := mu cw; cond := cond cw;
         done := done cw; state := state cw;
         onDone := onDone cw;
         onCancel := onCancel cw ++ [g]; onTimeout := onTimeout cw |}
  | None => cw
  end.

Definition OnTimeout (cw : Context) (f : option callback) : Context :=
  match f with
  | Some g =>
      {| ctx := ctx cw; cancel := cancel cw; mu := mu cw; cond := cond cw;
         done := done cw; state := state cw;
         onDone := onDone cw;
         onCancel := onCancel cw; onTimeout := onTimeout cw ++ [g] |}
  | None => cw
  end.

Definition IsDone (cw : Context) : bool :=
  bool_decide (state cw ≠ Created) && bool_decide (state cw ≠ Running).

(** [context.WithValue(c, key, value)]: one more pair in front. *)
Definition context_WithValue (c : context_Context) (key : value) (v : any)
  : context_Context :=
  {| tok := tok c; values := (key, v) :: values c |}.

(** [c.Value(key)]: the innermost pair with that key, nil if there is none. *)
Fixpoint chain_Value (l : list (value * any)) (key : value) : any :=
  match l with
  | [] => None
  | (k, v) :: rest => if decide (k = key) then v else chain_Value rest key
  end.

Definition WithValue (cw : Context) (key : value) (v : any) : Context :=
  {| ctx := context_WithValue (ctx cw) key v;
     cancel := cancel cw; mu := mu cw; cond := cond cw;
     done := done cw; state := state cw;
     onDone := onDone cw; onCancel := onCancel cw; onTimeout := onTimeout cw |}.

Definition Value (cw : Context) (key : value) : any :=
  chain_Value (values (ctx cw)) key.

(** [Clone]: [ctx], [cancel] and [state] are copied, the three slices are
    copied into fresh ones; [mu], [cond] and [done] are left at their zero
    values. *)
Definition Clone (cw : Context) : Context :=
  {| ctx := ctx cw; cancel := cancel cw;
     mu := false; cond := None; done := false;
     state := state cw;
     onDone := [] ++ onDone cw;
     onCancel := [] ++ onCancel cw;
     onTimeout := [] ++ onTimeout cw |}.

(** ** The world *)

Inductive mpc :=
| MStart                      (* about to call setState(Running) *)
| MSelect                     (* about to evaluate cw.ctx.Done() *)
| MBlocked (t : nat)          (* in select, on the done channel of cell t *)
| MClassify                   (* about to lock and switch on cw.ctx.Err() *)
| MBranch (newState : State) (callbacks : list callback)
                              (* about to test newState != Running *)
| MRangeOnDone                (* else branch, about to range over cw.onDone *)
| MCalls (fs : list callback) (* in a for-range loop, fs still to call *)
| MBroadcast                  (* about to call cw.cond.Broadcast() *)
| MExit.                      (* returned *)

Record Monitor := { m_cw : nat; m_pc : mpc }.

Inductive wpc :=
| WCheck                      (* about to lock and test !cw.done *)
| WRegister (c : nat)         (* in cond.Wait, lock held, not yet on the
                                 notify list *)
| WWaiting (c : nat)          (* on the notify list of c, lock released *)
| WReturned.

Record Waiter := { w_cw : nat; w_pc : wpc }.

Record World := {
  instances : list Context;          (* heap of *Context, by address *)
  tokens : list (option error);      (* Err() of every cancellation cell *)
  monitors : list Monitor;           (* goroutines in startMonitoring *)
  waiters : list Waiter;             (* calls of CancelWithWait *)
  log : list (nat * callback);       (* (address, f): the monitor of that
                                        object called f, oldest first *)
  crashed : bool                     (* a goroutine panicked *)
}.

Definition empty_world : World :=
  {| instances := []; tokens := []; monitors := []; waiters := [];
     log := []; crashed := false |}.

Definition set_instances (w : World) (l : list Context) : World :=
  {| instances := l; tokens := tokens w; monitors := monitors w;
     waiters := waiters w; log := log w; crashed := crashed w |}.

Definition set_tokens (w : World) (l : list (option error)) : World :=
  {| instances := instances w; tokens := l; monitors := monitors w;
     waiters := waiters w; log := log w; crashed := crashed w |}.

Definition set_monitors (w : World) (l : list Monitor) : World :=
  {| instances := instances w; tokens := tokens w; monitors := l;
     waiters := waiters w; log := log w; crashed := crashed w |}.

Definition set_waiters (w : World) (l : list Waiter) : World :=
  {| instances := instances w; tokens := tokens w; monitors := monitors w;
     waiters := l; log := log w; crashed := crashed w |}.

Definition add_log (w : World) (e : nat * callback) : World :=
  {| instances := instances w; tokens := tokens w; monitors := monitors w;
     waiters := waiters w; log := log w ++ [e]; crashed := crashed w |}.

Definition crash (w : World) : World :=
  {| instances := instances w; tokens := tokens w; monitors := monitors w;
     waiters := waiters w; log := log w; crashed := true |}.

Definition set_inst (w : World) (a : nat) (cw : Context) : World :=
  set_instances w (<[a := cw]> (instances w)).

Definition set_mon (w : World) (m : nat) (a : nat) (pc : mpc) : World :=
  set_monitors w (<[m := {| m_cw := a; m_pc := pc |}]> (monitors w)).

Definition set_waiter (w : World) (i : nat) (a : nat) (pc : wpc) : World :=
  set_waiters w (<[i := {| w_cw := a; w_pc := pc |}]> (waiters w)).

(** ** The collaborator: cancellation cells *)

(** [ctx.Err()] of a context derived from cell [t]. *)
Definition token_Err (ts : list (option error)) (t : nat) : option error :=
  match ts !! t with
  | Some e => e
  | None => None
  end.

(** The cell settles with [e] unless it has settled before: the first
    cause wins. *)
Definition settle (ts : list (option error)) (t : nat) (e : error)
  : list (option error) :=
  match ts !! t with
  | Some None => <[t := Some e]> ts
  | _ => ts
  end.

(** Calling the [context.CancelFunc] of cell [t]. *)
Definition cancel_token (ts : list (option error)) (t : nat)
  : list (option error) :=
  settle ts t context_Canceled.

(** [cw.Err()]. *)
Definition Err (w : World) (cw : Context) : option error :=
  token_Err (tokens w) (tok (ctx cw)).

(** [context.WithCancel(parent)]: a new cell, already settled with the
    parent's error when the parent is done. *)
Definition derive_WithCancel (parent : Parent) : option error := p_err parent.

(** [context.WithTimeout(parent, timeout)]: as above, and a duration that
    is not positive expires at once. *)
Definition derive_WithTimeout (parent : Parent) (timeout : Z) : option error :=
  match p_err parent with
  | Some e => Some e
  | None => if (timeout <=? 0)%Z then Some context_DeadlineExceeded else None
  end.

(** ** Constructors, Cancel, Reset *)

Definition new_Context (w : World) (parent : Parent) (e : option error)
  : World :=
  let a := length (instances w) in
  let t := length (tokens w) in
  let cw := {| ctx := {| tok := t; values := p_values parent |};
               cancel := t; mu := false; cond := Some a; done := false;
               state := Created;
               onDone := []; onCancel := []; onTimeout := [] |} in
  {| instances := instances w ++ [cw];
     tokens := tokens w ++ [e];
     monitors := monitors w ++ [{| m_cw := a; m_pc := MStart |}];
     waiters := waiters w; log := log w; crashed := crashed w |}.

Definition NewContextWithCancel (w : World) (parent : Parent) : World :=
  new_Context w parent (derive_WithCancel parent).

Definition NewContextWithTimeout (w : World) (parent : Parent) (timeout : Z)
  : World :=
  new_Context w parent (derive_WithTimeout parent timeout).

Definition Cancel (w : World) (cw : Context) : World :=
  set_tokens w (cancel_token (tokens w) (cancel cw)).

(** [Reset] runs under the lock from beginning to end. *)
Definition Reset (w : World) (a : nat) (cw : Context) (parent : Parent)
  : World :=
  let t := length (tokens w) in
  let cw' := {| ctx := {| tok := t; values := p_values parent |};
                cancel := t; mu := mu cw; cond := cond cw; done := false;
                state := Created;
                onDone := []; onCancel := []; onTimeout := [] |} in
  {| instances := <[a := cw']> (instances w);
     tokens := tokens w ++ [derive_WithCancel parent];
     monitors := monitors w ++ [{| m_cw := a; m_pc := MStart |}];
     waiters := waiters w; log := log w; crashed := crashed w |}.

(** ** The monitor goroutine: [startMonitoring] of context.go *)

(** The [switch] under the lock. *)
Definition classify (err : option error) (cw : Context)
  : State * list callback :=
  if errors_Is err context_Canceled then (Canceled, onCancel cw)
  else if errors_Is err context_DeadlineExceeded then (Deadlined, onTimeout cw)
  else (zero_State, []).

(** [cond.Broadcast()]: every goroutine on the notify list of [c] goes back
    to taking the lock and testing [done]. *)
Definition wake_one (c : nat) (x : Waiter) : Waiter :=
  match w_pc x with
  | WWaiting c' =>
      if decide (c' = c) then {| w_cw := w_cw x; w_pc := WCheck |} else x
  | _ => x
  end.

Definition Broadcast (w : World) (c : nat) : World :=
  set_waiters w (map (wake_one c) (waiters w)).

Definition monitor_step (w : World) (m : nat) : option World :=
  match monitors w !! m with
  | None => None
  | Some mon =>
    let a := m_cw mon in
    match instances w !! a with
    | None => None
    | Some cw =>
      match m_pc mon with
      | MStart =>
          if mu cw then None
          else Some (set_mon (set_inst w a (setState cw Running)) m a MSelect)
      | MSelect => Some (set_mon w m a (MBlocked (tok (ctx cw))))
      | MBlocked t =>
          match token_Err (tokens w) t with
          | Some _ => Some (set_mon w m a MClassify)
          | None => None
          end
      | MClassify =>
          if mu cw then None
          else let (newState, callbacks) := classify (Err w cw) cw in
               Some (set_mon w m a (MBranch newState callbacks))
      | MBranch newState callbacks =>
          if mu cw then None
          else if bool_decide (newState ≠ Running)
          then Some (set_mon (set_inst w a (setState cw newState)) m a
                             (MCalls callbacks))
          else Some (set_mon (set_inst w a (setState cw Finished)) m a
                             MRangeOnDone)
      | MRangeOnDone => Some (set_mon w m a (MCalls (onDone cw)))
      | MCalls (f :: fs) => Some (set_mon (add_log w (a, f)) m a (MCalls fs))
      | MCalls [] => Some (set_mon (set_inst w a (set_done cw true)) m a
                                   MBroadcast)
      | MBroadcast =>
          match cond cw with
          | None => Some (crash w)
          | Some c => Some (set_mon (Broadcast w c) m a MExit)
          end
      | MExit => None
      end
    end
  end.

(** ** [CancelWithWait] after its call of [Cancel] *)

Definition waiter_step (w : World) (i : nat) : option World :=
  match waiters w !! i with
  | None => None
  | Some x =>
    let a := w_cw x in
    match instances w !! a with
    | None => None
    | Some cw =>
      match w_pc x with
      | WCheck =>
          if mu cw then None
          else if done cw then Some (set_waiter w i a WReturned)
          else match cond cw with
               | None => Some (crash w)
               | Some c => Some (set_waiter (set_inst w a (set_mu cw true))
                                            i a (WRegister c))
               end
      | WRegister c =>
          Some (set_waiter (set_inst w a (set_mu cw false)) i a (WWaiting c))
      | WWaiting _ => None
      | WReturned => None
      end
    end
  end.

(** ** Labels and steps *)

Inductive label :=
| LNewContextWithCancel (parent : Parent)
| LNewContextWithTimeout (parent : Parent) (timeout : Z)
| LOnDone (a : nat) (f : option callback)
| LOnCancel (a : nat) (f : option callback)
| LOnTimeout (a : nat) (f : option callback)
| LCancel (a : nat)
| LCancelWithWait (a : nat)   (* the call, up to and including cw.Cancel() *)
| LWithValue (a : nat) (key : value) (v : any)
| LReset (a : nat) (parent : Parent)
| LClone (a : nat)
| LMonitor (m : nat)          (* monitor m runs its next statement *)
| LWaiter (i : nat)           (* call i of CancelWithWait runs on *)
| LSettle (t : nat) (e : error).
                              (* cell t is settled by its deadline or by
                                 its parent, with error e *)

#[global] Instance Parent_eq_dec : EqDecision Parent.
Proof. solve_decision. Defined.

#[global] Instance label_eq_dec : EqDecision label.
Proof. solve_decision. Defined.

Definition on_instance (w : World) (a : nat) (f : Context → World)
  : option World :=
  match instances w !! a with
  | Some cw => Some (f cw)
  | None => None
  end.

Definition step (w : World) (l : label) : option World :=
  if crashed w then None
  else match l with
  | LNewContextWithCancel parent => Some (NewContextWithCancel w parent)
  | LNewContextWithTimeout parent timeout =>
      Some (NewContextWithTimeout w parent timeout)
  | LOnDone a f => on_instance w a (λ cw, set_inst w a (OnDone cw f))
  | LOnCancel a f => on_instance w a (λ cw, set_inst w a (OnCancel cw f))
  | LOnTimeout a f => on_instance w a (λ cw, set_inst w a (OnTimeout cw f))
  | LCancel a => on_instance w a (λ cw, Cancel w cw)
  | LCancelWithWait a =>
      on_instance w a (λ cw,
        set_waiters (Cancel w cw)
                    (waiters w ++ [{| w_cw := a; w_pc := WCheck |}]))
  | LWithValue a key v =>
      on_instance w a (λ cw, set_inst w a (WithValue cw key v))
  | LReset a parent =>
      match instances w !! a with
      | Some cw => if mu cw then None else Some (Reset w a cw parent)
      | None => None
      end
  | LClone a =>
      on_instance w a (λ cw, set_instances w (instances w ++ [Clone cw]))
  | LMonitor m => monitor_step w m
  | LWaiter i => waiter_step w i
  | LSettle t e => Some (set_tokens w (settle (tokens w) t e))
  end.

(** Running a schedule; [None] when some label is not enabled. *)
Fixpoint run (w : World) (sched : list label) : option World :=
  match sched with
  | [] => Some w
  | l :: rest =>
      match step w l with
      | Some w' => run w' rest
      | None => None
      end
  end.

(** What the monitor of the object at [a] has called so far. *)
Definition invoked (w : World) (a : nat) : list callback :=
  map snd (filter (λ e, fst e = a) (log w)).

(** ** The monitor of main.go, the earlier draft of the package

    The draft has no [cond], no [done], no [Reset] and no [Clone]; its
    registration methods append without testing for nil, and its monitor
    compares the error with [==].  [startMonitoring] from the moment the
    done channel has fired, run without interference: the final state and
    the callbacks called, in order. *)
Module Draft.

Record Context := {
  state : State;
  onDone : list callback;
  onCancel : list callback;
  onTimeout : list callback
}.

Definition startMonitoring (cw : Context) (err : option error)
  : State * list callback :=
  match err with
  | Some context_Canceled => (Canceled, onCancel cw ++ onDone cw)
  | Some context_DeadlineExceeded => (Deadlined, onTimeout cw ++ onDone cw)
  | Some _ => (Finished, onDone cw)
  | None => (Running, onDone cw)
  end.

End Draft.

(** ** Predicates on worlds and schedules *)

(** The state the monitor of context.go ends in when the token has settled
    with [e]. *)
Definition final_state (e : error) : State :=
  if error_is e context_Canceled then Canceled
  else if error_is e context_DeadlineExceeded then Deadlined
  else zero_State.

(** The terminal states of the lifecycle. *)
Definition terminal (s : State) : bool :=
  match s with
  | Canceled | Deadlined | Finished => true
  | Created | Running => false
  end.

(** The order [Created < Running < terminal]; terminal states are not
    related to one another. *)
Definition rank (s : State) : nat :=
  match s with
  | Created => 0
  | Running => 1
  | Canceled | Deadlined | Finished => 2
  end.

Definition regresses (s s' : State) : bool :=
  (rank s' <? rank s) || (terminal s && negb (bool_decide (s' = s))).

(** [l] is [Reset] on the object at [a]. *)
Definition resets (a : nat) (l : label) : bool :=
  match l with
  | LReset a' _ => bool_decide (a' = a)
  | _ => false
  end.

Definition no_Reset (a : nat) (sched : list label) : Prop :=
  forallb (λ l, negb (resets a l)) sched = true.

(** A monitor that is past its dispatch loop: it will not write [state] nor
    call anything any more. *)
Definition past_dispatch (pc : mpc) : Prop :=
  pc = MBroadcast ∨ pc = MExit.

(** Every thread and every log entry refers to an allocated object. *)
Definition wf_world (w : World) : Prop :=
  Forall (λ mon, m_cw mon < length (instances w)) (monitors w) ∧
  Forall (λ x, w_cw x < length (instances w)) (waiters w) ∧
  Forall (λ e, fst e < length (instances w)) (log w).

(** The generation of the object at [a] is over: [done] is set and no
    monitor attached to the object is before or in its dispatch loop.  This
    is the situation after [CancelWithWait] has returned. *)
Definition quiescent (w : World) (a : nat) : Prop :=
  (∃ cw, instances w !! a = Some cw ∧ done cw = true) ∧
  ∀ m mon, monitors w !! m = Some mon → m_cw mon = a →
           past_dispatch (m_pc mon).

(** What holds of the object [cw] at [a] while its monitor is at [pc], in a
    generation with token [t] that started with [base] already called and
    in which the callbacks [L] were in [onCancel] before the token settled. *)
Definition phase (w : World) (a t : nat) (base L : list callback)
    (cw : Context) (pc : mpc) : Prop :=
  match pc with
  | MStart | MSelect =>
      done cw = false ∧ invoked w a = base ∧ L `prefix_of` onCancel cw
  | MBlocked t' =>
      t' = t ∧ done cw = false ∧ invoked w a = base ∧
      L `prefix_of` onCancel cw
  | MClassify =>
      is_Some (token_Err (tokens w) t) ∧
      done cw = false ∧ invoked w a = base ∧ L `prefix_of` onCancel cw
  | MBranch newState callbacks =>
      ∃ e, token_Err (tokens w) t = Some e ∧
           done cw = false ∧ invoked w a = base ∧
           newState = final_state e ∧
           (error_is e context_Canceled = true →
            L `prefix_of` callbacks ∧ callbacks `prefix_of` onCancel cw)
  | MRangeOnDone => False
  | MCalls fs =>
      ∃ e snap, token_Err (tokens w) t = Some e ∧
           done cw = false ∧ state cw = final_state e ∧
           invoked w a ++ fs = base ++ snap ∧
           (error_is e context_Canceled = true →
            L `prefix_of` snap ∧ snap `prefix_of` onCancel cw)
  | MBroadcast | MExit =>
      ∃ e snap, token_Err (tokens w) t = Some e ∧
           done cw = true ∧ state cw = final_state e ∧
           invoked w a = base ++ snap ∧
           (error_is e context_Canceled = true →
            L `prefix_of` snap ∧ snap `prefix_of` onCancel cw)
  end.

(** The generation invariant: the object at [a] holds token [t] and its
    trigger, monitor [m] is the one monitor of the generation, every call
    of [CancelWithWait] from number [i0] on has returned only after the
    monitor was past its dispatch loop. *)
Definition gen_inv (a m t i0 : nat) (base L : list callback) (w : World)
  : Prop :=
  ∃ cw pc,
    instances w !! a = Some cw ∧
    tok (ctx cw) = t ∧ cancel cw = t ∧ t < length (tokens w) ∧
    monitors w !! m = Some {| m_cw := a; m_pc := pc |} ∧
    phase w a t base L cw pc ∧
    (∀ m' mon, m' ≠ m → monitors w !! m' = Some mon → m_cw mon = a →
               past_dispatch (m_pc mon)) ∧
    i0 ≤ length (waiters w) ∧
    (∀ i, i0 ≤ i →
          waiters w !! i = Some {| w_cw := a; w_pc := WReturned |} →
          past_dispatch pc).

(** The callbacks a monitor still holds in its local variables. *)
Definition pending (pc : mpc) : list callback :=
  match pc with
  | MBranch _ callbacks => callbacks
  | MCalls fs => fs
  | _ => []
  end.

Definition registered (cw : Context) : list callback :=
  onDone cw ++ onCancel cw ++ onTimeout cw.




(** What no step other than [Reset] changes of an object: its token, its
    trigger and its condition variable stay, its registries only grow at
    the end. *)
Definition same_core (cw cw' : Context) : Prop :=
  tok (ctx cw') = tok (ctx cw) ∧ cancel cw' = cancel cw ∧
  cond cw' = cond cw ∧
  onDone cw `prefix_of` onDone cw' ∧
  onCancel cw `prefix_of` onCancel cw' ∧
  onTimeout cw `prefix_of` onTimeout cw'.

Definition is_constructor (l : label) : bool :=
  match l with
  | LNewContextWithCancel _ | LNewContextWithTimeout _ _ => true
  | _ => false
  end.

(** [l] registers the callback [g] on the object at [a]. *)
Definition registers (g : callback) (a : nat) (l : label) : bool :=
  match l with
  | LOnDone a' (Some f) | LOnCancel a' (Some f) | LOnTimeout a' (Some f) =>
      bool_decide (f = g) && bool_decide (a' = a)
  | _ => false
  end.



(** ** Concrete scenarios *)

(** A parent whose deadline has passed, and a parent of a foreign
    implementation whose [Err()] is an error of its own. *)
Definition expired_parent : Parent :=
  {| p_err := Some context_DeadlineExceeded; p_values := [] |}.

Definition foreign_parent : Parent :=
  {| p_err := Some (ErrOther 0); p_values := [] |}.

(** An object with one callback in each registry, its monitor blocked in
    [select]. *)
Definition scenario_registered : list label :=
  [LNewContextWithCancel Background;
   LOnDone 0 (Some 7); LOnCancel 0 (Some 3); LOnTimeout 0 (Some 5);
   LMonitor 0; LMonitor 0].

(** [CancelWithWait] finds [done] unset and waits; the monitor wakes up,
    classifies, calls the callbacks, sets [done] and broadcasts; the call
    wakes up and returns. *)
Definition scenario_wait : list label :=
  [LWaiter 0; LWaiter 0;
   LMonitor 0; LMonitor 0; LMonitor 0; LMonitor 0; LMonitor 0; LMonitor 0;
   LWaiter 0].

(** The same object made with a timeout; the deadline passes, the monitor
    runs to its end. *)
Definition scenario_timeout : list label :=
  [LNewContextWithTimeout Background 50;
   LOnDone 0 (Some 7); LOnCancel 0 (Some 3); LOnTimeout 0 (Some 5);
   LMonitor 0; LMonitor 0; LSettle 0 context_DeadlineExceeded;
   LMonitor 0; LMonitor 0; LMonitor 0; LMonitor 0; LMonitor 0; LMonitor 0].

(** An object derived from a parent that is done; the monitor runs up to
    the test [newState != Running]. *)
Definition scenario_derived (parent : Parent) : list label :=
  [LNewContextWithCancel parent;
   LMonitor 0; LMonitor 0; LMonitor 0; LMonitor 0].

(** The monitor runs to its end, [CancelWithWait] is called and returns. *)
Definition scenario_finish : list label :=
  [LMonitor 0; LMonitor 0; LMonitor 0; LCancelWithWait 0; LWaiter 0].



(** The call of [CancelWithWait] has read [done] unset and is about to
    put itself on the notify list; the monitor sets [done] and broadcasts;
    the call then waits for a wake-up that has already happened. *)
Definition scenario_lost_wakeup : list label :=
  [LNewContextWithCancel Background;
   LMonitor 0; LMonitor 0; LCancel 0; LMonitor 0; LMonitor 0; LMonitor 0;
   LCancelWithWait 0; LWaiter 0;
   LMonitor 0; LMonitor 0;
   LWaiter 0].

Definition the_world (o : option World) : World := default empty_world o.

Definition world_registered : World :=
  Eval vm_compute in the_world (run empty_world scenario_registered).

Definition world_canceled : World :=
  Eval vm_compute in
    the_world (run world_registered (LCancelWithWait 0 :: scenario_wait)).

Definition instance_registered : Context :=
  {| ctx := {| tok := 0; values := [] |}; cancel := 0; mu := false;
     cond := Some 0; done := false; state := Running;
     onDone := [7]; onCancel := [3]; onTimeout := [5] |}.

Definition instance_canceled : Context :=
  {| ctx := {| tok := 0; values := [] |}; cancel := 0; mu := false;
     cond := Some 0; done := true; state := Canceled;
     onDone := [7]; onCancel := [3]; onTimeout := [5] |}.

(** The monitor is at a point from which [Finished] would be set: with
    [newState] at [Running] (the else branch) or at [Finished]. *)
Definition heads_for_else (pc : mpc) : bool :=
  match pc with
  | MBranch Running _ | MBranch Finished _ | MRangeOnDone => true
  | _ => false
  end.

Definition no_Finished (w : World) : Prop :=
  Forall (λ cw, state cw ≠ Finished) (instances w) ∧
  Forall (λ mon, heads_for_else (m_pc mon) = false) (monitors w).

(** The monitor [m] of the object [cw] at [a] can run on: nothing has
    panicked, the lock is free, the object has its condition variable [c],
    the token [t] has settled; and call [i] of [CancelWithWait] is about to
    test [done]. *)
Definition can_run (a m t c i : nat) (w : World) (cw : Context) (pc : mpc)
  : Prop :=
  crashed w = false ∧ instances w !! a = Some cw ∧
  mu cw = false ∧ cond cw = Some c ∧ tok (ctx cw) = t ∧
  monitors w !! m = Some {| m_cw := a; m_pc := pc |} ∧
  is_Some (token_Err (tokens w) t) ∧
  waiters w !! i = Some {| w_cw := a; w_pc := WCheck |}.

(** The state of the object while its monitor is at [pc], up to the test
    [newState != Running]. *)
Definition phase_state (cw : Context) (pc : mpc) : Prop :=
  match pc with
  | MStart => state cw = Created
  | MSelect | MBlocked _ | MClassify | MBranch _ _ => state cw = Running
  | _ => True
  end.

Definition gen_state (a m : nat) (w : World) : Prop :=
  ∃ cw pc, instances w !! a = Some cw ∧
           monitors w !! m = Some {| m_cw := a; m_pc := pc |} ∧
           phase_state cw pc.

(** The moves of the state within a generation: none, [Created] to
    [Running], or [Running] to what the sentinel [e] of the token gives. *)
Definition state_move (w' : World) (t : nat) (s s' : State) : Prop :=
  s' = s ∨ (s = Created ∧ s' = Running) ∨
  (s = Running ∧
   ∃ e, token_Err (tokens w') t = Some e ∧ s' = final_state e).

(** ** More invariants of a generation *)

(** What the monitor dispatches, [snap], when the token has settled with an
    error [e] that is not a cancellation: for a deadline a snapshot of
    [onTimeout] that holds the callbacks [Lt] registered before the token
    settled, for any other error nothing. *)
Definition dispatch_ok (e : error) (Lt snap : list callback) (cw : Context)
  : Prop :=
  (error_is e context_Canceled = false →
   error_is e context_DeadlineExceeded = true →
   Lt `prefix_of` snap ∧ snap `prefix_of` onTimeout cw) ∧
  (error_is e context_Canceled = false →
   error_is e context_DeadlineExceeded = false → snap = []).

Definition phase_snap (w : World) (a t : nat) (base Lt : list callback)
    (cw : Context) (pc : mpc) : Prop :=
  match pc with
  | MStart | MSelect | MBlocked _ | MClassify => Lt `prefix_of` onTimeout cw
  | MBranch _ callbacks =>
      ∃ e, token_Err (tokens w) t = Some e ∧ dispatch_ok e Lt callbacks cw
  | MRangeOnDone => False
  | MCalls fs =>
      ∃ e snap, token_Err (tokens w) t = Some e ∧
                invoked w a ++ fs = base ++ snap ∧ dispatch_ok e Lt snap cw
  | MBroadcast | MExit =>
      ∃ e snap, token_Err (tokens w) t = Some e ∧
                invoked w a = base ++ snap ∧ dispatch_ok e Lt snap cw
  end.

Definition gen_snap (a m t : nat) (base Lt : list callback) (w : World)
  : Prop :=
  ∃ cw pc, instances w !! a = Some cw ∧
           monitors w !! m = Some {| m_cw := a; m_pc := pc |} ∧
           phase_snap w a t base Lt cw pc.

(** The three invariants of the generation of the object at [a], with
    monitor [m] and token [t], that began when [base] had been called. *)
Definition generation (a m t i0 : nat) (base : list callback) (w : World)
  : Prop :=
  gen_inv a m t i0 base [] w ∧ gen_state a m w ∧ gen_snap a m t base [] w.

(** ** Predicates for the further properties *)




(** Every object holds the trigger of the token it holds, and that token
    is allocated. *)
Definition wf_tokens (w : World) : Prop :=
  Forall (λ cw, cancel cw = tok (ctx cw) ∧ cancel cw < length (tokens w))
         (instances w).

(** [GetContext()] handed to a constructor as the parent: what the
    derivation sees of the object's [ctx], its [Err()] at that moment and
    its value chain. *)
Definition GetContext (w : World) (cw : Context) : Parent :=
  {| p_err := Err w cw; p_values := values (ctx cw) |}.

(** [l] registers [g] with [OnCancel] or [OnTimeout], on any object. *)
Definition registers_specific (g : callback) (l : label) : bool :=
  match l with
  | LOnCancel _ (Some f) | LOnTimeout _ (Some f) => bool_decide (f = g)
  | _ => false
  end.

Definition only_OnDone (g : callback) (sched : list label) : Prop :=
  forallb (λ l, negb (registers_specific g l)) sched = true.

(** [g] is in no [onCancel], in no [onTimeout], in no monitor's hands and
    not in the log. *)
Definition never_specific (g : callback) (w : World) : Prop :=
  (g ∉ map snd (log w)) ∧
  (∀ m mon, monitors w !! m = Some mon → g ∉ pending (m_pc mon)) ∧
  (∀ a cw, instances w !! a = Some cw →
           (g ∉ onCancel cw) ∧ (g ∉ onTimeout cw)).

(** The monitor has yet to read a registry of its object. *)
Definition will_read (pc : mpc) : bool :=
  match pc with
  | MStart | MSelect | MBlocked _ | MClassify | MRangeOnDone => true
  | MBranch Running _ => true
  | _ => false
  end.

(** [l] registers [g], on any object and in any registry. *)
Definition registers_any (g : callback) (l : label) : bool :=
  match l with
  | LOnDone _ (Some f) | LOnCancel _ (Some f) | LOnTimeout _ (Some f) =>
      bool_decide (f = g)
  | _ => false
  end.

Definition never_registers (g : callback) (sched : list label) : Prop :=
  forallb (λ l, negb (registers_any g l)) sched = true.

(** [g] is new: not in the log, in no monitor's hands, in no registry. *)
Definition fresh_callback (g : callback) (w : World) : Prop :=
  (g ∉ map snd (log w)) ∧
  (∀ m mon, monitors w !! m = Some mon → g ∉ pending (m_pc mon)) ∧
  (∀ a cw, instances w !! a = Some cw → g ∉ registered cw).

(** [g] has come too late: it is not in the log, in no monitor's hands, and
    the monitors of the objects that have it in a registry will not read a
    registry any more. *)
Definition too_late (g : callback) (w : World) : Prop :=
  wf_world w ∧
  (g ∉ map snd (log w)) ∧
  (∀ m mon, monitors w !! m = Some mon → g ∉ pending (m_pc mon)) ∧
  (∀ a cw, instances w !! a = Some cw → g ∈ registered cw →
           ∀ m mon, monitors w !! m = Some mon → m_cw mon = a →
                    will_read (m_pc mon) = false).

(** ** Registration and dispatch in main.go

    The registration methods of the draft append whatever they are given,
    nil included, and the loops of its monitor call every element: calling
    a nil func panics.  A registry of the draft is a list of funcs that may
    be nil; [dispatch] is one [for _, f := range] loop with [f()] as body:
    the callbacks called, and whether the loop panicked. *)
Module DraftRegistry.

Definition registry := list (option callback).

Definition OnDone (r : registry) (f : option callback) : registry := r ++ [f].
Definition OnCancel (r : registry) (f : option callback) : registry := r ++ [f].
Definition OnTimeout (r : registry) (f : option callback) : registry := r ++ [f].

Fixpoint dispatch (r : registry) : list callback * bool :=
  match r with
  | [] => ([], false)
  | Some f :: rest => let (called, panicked) := dispatch rest in
                      (f :: called, panicked)
  | None :: _ => ([], true)
  end.

End DraftRegistry.

(** ** More scenarios *)

Definition world_timeout : World :=
  Eval vm_compute in the_world (run empty_world (take 6 scenario_timeout)).

Definition world_deadlined : World :=
  Eval vm_compute in the_world (run empty_world scenario_timeout).

Definition instance_deadlined : Context :=
  {| ctx := {| tok := 0; values := [] |}; cancel := 0; mu := false;
     cond := Some 0; done := true; state := Deadlined;
     onDone := [7]; onCancel := [3]; onTimeout := [5] |}.

Definition world_child : World :=
  Eval vm_compute in
    the_world (run world_canceled
      [LNewContextWithCancel (GetContext world_canceled instance_canceled);
       LMonitor 1; LMonitor 1; LMonitor 1; LMonitor 1; LMonitor 1;
       LMonitor 1; LMonitor 1]).

Definition instance_child : Context :=
  {| ctx := {| tok := 1; values := [] |}; cancel := 1; mu := false;
     cond := Some 1; done := true; state := Canceled;
     onDone := []; onCancel := []; onTimeout := [] |}.

(** ** The notify list

    What the lost wake-up of [CancelWithWait] is stated with. *)

(** The condition variable of an object is its own: the constructors take
    [sync.NewCond(&cw.mu)], [Reset] keeps it, a clone has none. *)
Definition cond_own (w : World) : Prop :=
  ∀ a cw c, instances w !! a = Some cw → cond cw = Some c → c = a.

(** Monitor [m] is the only goroutine in [startMonitoring] on the object
    at [a]. *)
Definition sole_monitor (a m : nat) (w : World) : Prop :=
  ∀ m' mon, monitors w !! m' = Some mon → m_cw mon = a → m' = m.

(** Call [i] of [CancelWithWait] on the object at [a] is on the notify
    list, and every monitor of the object has returned: nothing is left
    that would broadcast. *)
Definition hung (a i : nat) (w : World) : Prop :=
  waiters w !! i = Some {| w_cw := a; w_pc := WWaiting a |} ∧
  a < length (instances w) ∧ cond_own w ∧
  ∀ m mon, monitors w !! m = Some mon → m_cw mon = a → m_pc mon = MExit.

(** A bound on the statements a monitor at [pc] has yet to run before it
    leaves its dispatch loop. *)
Definition to_go (cw : Context) (pc : mpc) : nat :=
  let n := length (onDone cw) + length (onCancel cw) + length (onTimeout cw) in
  match pc with
  | MStart => 2 * n + 6
  | MSelect => 2 * n + 5
  | MBlocked _ => 2 * n + 4
  | MClassify => 2 * n + 3
  | MBranch _ callbacks => length callbacks + n + 2
  | MRangeOnDone => n + 1
  | MCalls fs => length fs
  | MBroadcast | MExit => 0
  end.

(** ** Tactics

    [step_inv] opens a step of a world that has not panicked, [on_inst]
    the lookup of the object a method is called on, [split_ifs] the tests
    of a goroutine's step. *)

Ltac step_inv H :=
  unfold step in H;
  match type of H with
  | (if crashed ?w then _ else _) = _ =>
      let Hc := fresh "Hcrashed" in
      destruct (crashed w) eqn:Hc; [discriminate H|]
  end.

Ltac on_inst H :=
  unfold on_instance in H;
  match type of H with
  | match instances ?w !! ?a with _ => _ end = _ =>
      let cw := fresh "cw0" in
      let Hi := fresh "Hinst" in
      destruct (instances w !! a) as [cw|] eqn:Hi; [|discriminate H]
  end.

Ltac split_ifs H :=
  repeat match type of H with
         | (if ?b then _ else _) = _ =>
             let E := fresh "Hif" in destruct b eqn:E
         | match ?x with _ => _ end = _ =>
             let E := fresh "Hm" in destruct x eqn:E
         end; try discriminate H.

(** * Properties *)

(** ** Registration, values, clones: one object at a time *)

(** C7. Registering a nil callback with [OnDone], [OnCancel] or [OnTimeout]
    returns the object unchanged (there is no error path); registering a
    non-nil callback appends it at the end of that registry and leaves the
    other two registries, the state and the token as they were. *)
Theorem C7_registration (cw : Context) (g : callback) :
  (OnDone cw None = cw ∧ OnCancel cw None = cw ∧ OnTimeout cw None = cw) ∧
  (onDone (OnDone cw (Some g)) = onDone cw ++ [g] ∧
   onCancel (OnDone cw (Some g)) = onCancel cw ∧
   onTimeout (OnDone cw (Some g)) = onTimeout cw) ∧
  (onCancel (OnCancel cw (Some g)) = onCancel cw ++ [g] ∧
   onDone (OnCancel cw (Some g)) = onDone cw ∧
   onTimeout (OnCancel cw (Some g)) = onTimeout cw) ∧
  (onTimeout (OnTimeout cw (Some g)) = onTimeout cw ++ [g] ∧
   onDone (OnTimeout cw (Some g)) = onDone cw ∧
   onCancel (OnTimeout cw (Some g)) = onCancel cw).
Proof. repeat split. Qed.




(** ** The collaborator: a settled token stays as it is *)

Lemma token_Err_lt (ts : list (option error)) (t : nat) (e : error) :
  token_Err ts t = Some e → t < length ts.
Proof.
  unfold token_Err. destruct (ts !! t) eqn:H; [|done].
  intros _. by eapply lookup_lt_Some.
Qed.

Lemma token_Err_app (ts : list (option error)) (x : option error) (t : nat) :
  t < length ts → token_Err (ts ++ [x]) t = token_Err ts t.
Proof. intros H. unfold token_Err. by rewrite lookup_app_l. Qed.

Lemma token_Err_settle_other (ts : list (option error)) (t t' : nat)
    (e e' : error) :
  token_Err ts t' = Some e' → token_Err (settle ts t e) t' = Some e'.
Proof.
  unfold settle. destruct (ts !! t) as [[x|]|] eqn:Ht; try done.
  intros H. unfold token_Err in *.
  destruct (decide (t = t')) as [->|Hne].
  - by rewrite Ht in H.
  - by rewrite list_lookup_insert_ne.
Qed.

Lemma token_Err_settle_fresh (ts : list (option error)) (t : nat) (e : error) :
  t < length ts → token_Err ts t = None →
  token_Err (settle ts t e) t = Some e.
Proof.
  intros Hlt H. unfold settle, token_Err in *.
  destruct (ts !! t) as [[x|]|] eqn:Ht; try done.
  - by rewrite list_lookup_insert_eq.
  - apply lookup_ge_None in Ht. lia.
Qed.

Lemma length_settle (ts : list (option error)) (t : nat) (e : error) :
  length (settle ts t e) = length ts.
Proof.
  unfold settle. destruct (ts !! t) as [[x|]|]; try done.
  apply length_insert.
Qed.

(** ** What one step can change *)

Lemma step_tokens (w w' : World) (l : label) :
  step w l = Some w' →
  length (tokens w) ≤ length (tokens w') ∧
  ∀ t e, token_Err (tokens w) t = Some e → token_Err (tokens w') t = Some e.
Proof.
  intros H. step_inv H.
  assert (Hsame : tokens w' = tokens w →
    length (tokens w) ≤ length (tokens w') ∧
    ∀ t e, token_Err (tokens w) t = Some e →
           token_Err (tokens w') t = Some e).
  { intros ->. split; [lia|done]. }
  assert (Happ : ∀ x, tokens w' = tokens w ++ [x] →
    length (tokens w) ≤ length (tokens w') ∧
    ∀ t e, token_Err (tokens w) t = Some e →
           token_Err (tokens w') t = Some e).
  { intros x ->. split; [rewrite length_app; lia|].
    intros t e Ht. rewrite token_Err_app; [done|by eapply token_Err_lt]. }
  assert (Hset : ∀ t0 e0, tokens w' = settle (tokens w) t0 e0 →
    length (tokens w) ≤ length (tokens w') ∧
    ∀ t e, token_Err (tokens w) t = Some e →
           token_Err (tokens w') t = Some e).
  { intros t0 e0 ->. split; [rewrite length_settle; lia|].
    intros t e Ht. by apply token_Err_settle_other. }
  destruct l; simpl in H; try on_inst H;
    try (injection H as <-; first [by apply Hsame | by eapply Happ | by eapply Hset]).
  - (* Reset *)
    destruct (mu cw0); [done|]. injection H as <-. by eapply Happ.
  - (* monitor *)
    unfold monitor_step in H.
    destruct (monitors w !! m) as [mon|]; [|done].
    destruct (instances w !! m_cw mon) as [cw|]; [|done].
    destruct (m_pc mon) as [| |t| | ns cbs| |[|f fs]| |];
      repeat match type of H with
             | (if ?b then _ else _) = _ => destruct b
             | match ?x with _ => _ end = _ => destruct x
             end; try discriminate H; injection H as <-; by apply Hsame.
  - (* waiter *)
    unfold waiter_step in H.
    destruct (waiters w !! i) as [x|]; [|done].
    destruct (instances w !! w_cw x) as [cw|]; [|done].
    destruct (w_pc x);
      repeat match type of H with
             | (if ?b then _ else _) = _ => destruct b
             | match ?x with _ => _ end = _ => destruct x
             end; try discriminate H; injection H as <-; by apply Hsame.
Qed.

Lemma same_core_refl (cw : Context) : same_core cw cw.
Proof. by repeat split. Qed.

Lemma same_core_trans (cw1 cw2 cw3 : Context) :
  same_core cw1 cw2 → same_core cw2 cw3 → same_core cw1 cw3.
Proof.
  intros (?&?&?&?&?&?) (?&?&?&?&?&?).
  repeat split; try congruence; by etrans.
Qed.

Lemma prefix_snoc {A} (l : list A) (x : A) : l `prefix_of` l ++ [x].
Proof. by exists [x]. Qed.

Lemma same_core_OnDone cw f : same_core cw (OnDone cw f).
Proof. destruct f; repeat split; simpl; auto using prefix_snoc. Qed.
Lemma same_core_OnCancel cw f : same_core cw (OnCancel cw f).
Proof. destruct f; repeat split; simpl; auto using prefix_snoc. Qed.
Lemma same_core_OnTimeout cw f : same_core cw (OnTimeout cw f).
Proof. destruct f; repeat split; simpl; auto using prefix_snoc. Qed.

Lemma lookup_set_inst (w : World) (a a' : nat) (x cw : Context) :
  instances w !! a = Some cw →
  instances (set_inst w a' x) !! a = Some (if decide (a' = a) then x else cw).
Proof.
  intros H. unfold set_inst; simpl. destruct (decide (a' = a)) as [->|Hne].
  - apply list_lookup_insert_eq. by eapply lookup_lt_Some.
  - by rewrite list_lookup_insert_ne.
Qed.

(** An object is written by the methods called on it and by the monitors
    attached to it; only a monitor before the end of its dispatch loop
    writes [state] or [done]. *)
Lemma step_instance (w w' : World) (l : label) (a : nat) (cw : Context) :
  step w l = Some w' → instances w !! a = Some cw → resets a l = false →
  ∃ cw', instances w' !! a = Some cw' ∧ same_core cw cw' ∧
    ((state cw' = state cw ∧ done cw' = done cw) ∨
     ∃ m pc, l = LMonitor m ∧
             monitors w !! m = Some {| m_cw := a; m_pc := pc |} ∧
             ¬ past_dispatch pc).
Proof.
  intros H Ha Hr. step_inv H.
  assert (Hsame : instances w' = instances w →
    ∃ cw', instances w' !! a = Some cw' ∧ same_core cw cw' ∧
    ((state cw' = state cw ∧ done cw' = done cw) ∨
     ∃ m pc, l = LMonitor m ∧
             monitors w !! m = Some {| m_cw := a; m_pc := pc |} ∧
             ¬ past_dispatch pc)).
  { intros ->. exists cw. auto using same_core_refl. }
  assert (Happ : ∀ x, instances w' = instances w ++ [x] →
    ∃ cw', instances w' !! a = Some cw' ∧ same_core cw cw' ∧
    ((state cw' = state cw ∧ done cw' = done cw) ∨
     ∃ m pc, l = LMonitor m ∧
             monitors w !! m = Some {| m_cw := a; m_pc := pc |} ∧
             ¬ past_dispatch pc)).
  { intros x ->. exists cw. split; [by apply lookup_app_l_Some|].
    auto using same_core_refl. }
  assert (Hupd : ∀ a' cw0 x, instances w !! a' = Some cw0 →
    instances w' = <[a' := x]> (instances w) →
    same_core cw0 x → state x = state cw0 → done x = done cw0 →
    ∃ cw', instances w' !! a = Some cw' ∧ same_core cw cw' ∧
    ((state cw' = state cw ∧ done cw' = done cw) ∨
     ∃ m pc, l = LMonitor m ∧
             monitors w !! m = Some {| m_cw := a; m_pc := pc |} ∧
             ¬ past_dispatch pc)).
  { intros a' cw0 x Ha' -> Hc Hs Hd.
    destruct (decide (a' = a)) as [->|Hne].
    - exists x. rewrite Ha in Ha'. injection Ha' as <-.
      split; [apply list_lookup_insert_eq; by eapply lookup_lt_Some|]. auto.
    - exists cw. rewrite list_lookup_insert_ne by done.
      auto using same_core_refl. }
  destruct l; simpl in H; try on_inst H;
    try (injection H as <-; first [by apply Hsame | by eapply Happ]).
  - injection H as <-.
    eapply (Hupd _ _ _ Hinst); eauto using same_core_OnDone; by destruct f.
  - injection H as <-.
    eapply (Hupd _ _ _ Hinst); eauto using same_core_OnCancel; by destruct f.
  - injection H as <-.
    eapply (Hupd _ _ _ Hinst); eauto using same_core_OnTimeout; by destruct f.
  - injection H as <-. eapply (Hupd _ _ _ Hinst); eauto. by repeat split.
  - (* Reset of another object *)
    destruct (mu cw0); [done|]. injection H as <-. simpl in Hr.
    apply bool_decide_eq_false in Hr.
    exists cw. simpl. rewrite list_lookup_insert_ne by done.
    auto using same_core_refl.
  - (* monitor *)
    unfold monitor_step in H.
    destruct (monitors w !! m) as [[a' pc]|] eqn:Hm; [|done]. simpl in H.
    destruct (instances w !! a') as [cw0|] eqn:Ha'; [|done].
    destruct pc as [| |t| | ns cbs| |[|f fs]| |]; split_ifs H;
      injection H as <-; simpl;
      try (by apply Hsame);
      try (eapply (Hupd _ _ _ Ha'); eauto; by repeat split).
    all: destruct (decide (a' = a)) as [->|Hne];
      [ rewrite Ha in Ha'; injection Ha' as <-;
        eexists; split;
        [apply list_lookup_insert_eq; by eapply lookup_lt_Some|];
        split; [by repeat split|];
        right; do 2 eexists; split; [done|]; split; [done|];
        by intros [?|?]
      | exists cw; rewrite list_lookup_insert_ne by done;
        auto using same_core_refl ].
  - (* waiter *)
    unfold waiter_step in H.
    destruct (waiters w !! i) as [[a' pc]|] eqn:Hw; [|done]. simpl in H.
    destruct (instances w !! a') as [cw0|] eqn:Ha'; [|done].
    destruct pc; split_ifs H; injection H as <-; simpl;
      try (by apply Hsame);
      try (eapply (Hupd _ _ _ Ha'); eauto; by repeat split).
Qed.

(** A monitor is moved by its own label only; a new monitor starts at
    [MStart], attached to a new object or to the object being reset. *)
Lemma step_monitor_other (w w' : World) (l : label) (m : nat) (mon : Monitor) :
  step w l = Some w' → monitors w !! m = Some mon → l ≠ LMonitor m →
  monitors w' !! m = Some mon.
Proof.
  intros H Hm Hl. step_inv H.
  destruct l; simpl in H; try on_inst H;
    try (injection H as <-; simpl; first [done | by apply lookup_app_l_Some]).
  - destruct (mu cw0); [done|]. injection H as <-. simpl.
    by apply lookup_app_l_Some.
  - assert (m0 ≠ m) as Hne by congruence.
    unfold monitor_step in H.
    destruct (monitors w !! m0) as [[a' pc]|] eqn:Hm0; [|done]. simpl in H.
    destruct (instances w !! a') as [cw0|] eqn:Ha'; [|done].
    destruct pc as [| |t| | ns cbs| |[|f fs]| |]; split_ifs H;
      injection H as <-; simpl; try done;
      by rewrite list_lookup_insert_ne.
  - unfold waiter_step in H.
    destruct (waiters w !! i) as [[a' pc]|] eqn:Hw; [|done]. simpl in H.
    destruct (instances w !! a') as [cw0|] eqn:Ha'; [|done].
    destruct pc; split_ifs H; injection H as <-; by simpl.
Qed.

Lemma step_monitor_inv (w w' : World) (l : label) (m : nat) (mon' : Monitor) :
  step w l = Some w' → monitors w' !! m = Some mon' →
  monitors w !! m = Some mon' ∨
  (l = LMonitor m ∧
   ∃ pc, monitors w !! m = Some {| m_cw := m_cw mon'; m_pc := pc |} ∧
         (past_dispatch pc → past_dispatch (m_pc mon'))) ∨
  (m_pc mon' = MStart ∧
   (resets (m_cw mon') l = true ∨ length (instances w) ≤ m_cw mon')).
Proof.
  intros H Hm. step_inv H.
  assert (Happ : ∀ a, monitors w' = monitors w ++ [{| m_cw := a; m_pc := MStart |}] →
     resets a l = true ∨ length (instances w) ≤ a →
     monitors w !! m = Some mon' ∨
     (l = LMonitor m ∧
      ∃ pc, monitors w !! m = Some {| m_cw := m_cw mon'; m_pc := pc |} ∧
            (past_dispatch pc → past_dispatch (m_pc mon'))) ∨
     (m_pc mon' = MStart ∧
      (resets (m_cw mon') l = true ∨ length (instances w) ≤ m_cw mon'))).
  { intros a Heq Hor. rewrite Heq in Hm.
    apply lookup_snoc_Some in Hm as [[_ Hm]|[_ <-]]; [by left|].
    right; right. by simpl. }
  destruct l; simpl in H; try on_inst H;
    try (injection H as <-; simpl in *; first [by left | by eapply Happ; eauto]).
  - destruct (mu cw0); [done|]. injection H as <-. simpl in *.
    eapply Happ; [done|]. left. by apply bool_decide_eq_true.
  - unfold monitor_step in H.
    destruct (monitors w !! m0) as [[a' pc]|] eqn:Hm0; [|done]. simpl in H.
    destruct (instances w !! a') as [cw0|] eqn:Ha'; [|done].
    destruct pc as [| |t| | ns cbs| |[|f fs]| |]; split_ifs H;
      injection H as <-; simpl in Hm; try (by left).
    all: apply list_lookup_insert_Some in Hm as [(<-&<-&_)|[_ Hm]];
      [|by left];
      right; left; split; [done|]; eexists; split; [done|];
      simpl; unfold past_dispatch; intros [?|?]; try discriminate; auto.
  - unfold waiter_step in H.
    destruct (waiters w !! i) as [[a' pc]|] eqn:Hw; [|done]. simpl in H.
    destruct (instances w !! a') as [cw0|] eqn:Ha'; [|done].
    destruct pc; split_ifs H; injection H as <-; by left.
Qed.

(** Only a monitor inside its dispatch loop extends the log, by the
    callback it calls. *)
Lemma step_log (w w' : World) (l : label) :
  step w l = Some w' →
  log w' = log w ∨
  ∃ m a f fs, l = LMonitor m ∧
    monitors w !! m = Some {| m_cw := a; m_pc := MCalls (f :: fs) |} ∧
    log w' = log w ++ [(a, f)].
Proof.
  intros H. step_inv H.
  destruct l; simpl in H; try on_inst H;
    try (injection H as <-; by left).
  - destruct (mu cw0); [done|]. injection H as <-. by left.
  - unfold monitor_step in H.
    destruct (monitors w !! m) as [[a' pc]|] eqn:Hm0; [|done]. simpl in H.
    destruct (instances w !! a') as [cw0|] eqn:Ha'; [|done].
    destruct pc as [| |t| | ns cbs| |[|f fs]| |]; split_ifs H;
      injection H as <-; simpl; try (by left).
    right. by exists m, a', f, fs.
  - unfold waiter_step in H.
    destruct (waiters w !! i) as [[a' pc]|] eqn:Hw; [|done]. simpl in H.
    destruct (instances w !! a') as [cw0|] eqn:Ha'; [|done].
    destruct pc; split_ifs H; injection H as <-; by left.
Qed.

Lemma invoked_snoc (w w' : World) (a a' : nat) (f : callback) :
  log w' = log w ++ [(a', f)] →
  invoked w' a = if decide (a' = a) then invoked w a ++ [f] else invoked w a.
Proof.
  intros Hl. unfold invoked. rewrite Hl, filter_app, map_app.
  destruct (decide (a' = a)) as [->|Hne].
  - by rewrite filter_cons_True, filter_nil by done.
  - rewrite filter_cons_False, filter_nil by done. by rewrite app_nil_r.
Qed.

Lemma step_invoked (w w' : World) (l : label) (a : nat) :
  step w l = Some w' →
  invoked w' a = invoked w a ∨
  ∃ m f fs, l = LMonitor m ∧
    monitors w !! m = Some {| m_cw := a; m_pc := MCalls (f :: fs) |} ∧
    invoked w' a = invoked w a ++ [f].
Proof.
  intros H. destruct (step_log _ _ _ H) as [Hl|(m&a'&f&fs&->&Hm&Hl)].
  - left. unfold invoked. by rewrite Hl.
  - rewrite (invoked_snoc _ _ a _ _ Hl).
    destruct (decide (a' = a)) as [->|Hne]; [|by left].
    right. by exists m, f, fs.
Qed.

(** A call of [CancelWithWait] returns only when it reads [done] set. *)
Lemma step_waiters (w w' : World) (l : label) :
  step w l = Some w' →
  length (waiters w) ≤ length (waiters w') ∧
  ∀ i a, waiters w' !! i = Some {| w_cw := a; w_pc := WReturned |} →
    waiters w !! i = Some {| w_cw := a; w_pc := WReturned |} ∨
    ∃ cw, instances w !! a = Some cw ∧ done cw = true.
Proof.
  intros H. step_inv H.
  assert (Hsame : waiters w' = waiters w →
    length (waiters w) ≤ length (waiters w') ∧
    ∀ i a, waiters w' !! i = Some {| w_cw := a; w_pc := WReturned |} →
      waiters w !! i = Some {| w_cw := a; w_pc := WReturned |} ∨
      ∃ cw, instances w !! a = Some cw ∧ done cw = true).
  { intros ->. split; [lia|]. intros; by left. }
  destruct l; simpl in H; try on_inst H;
    try (injection H as <-; by apply Hsame).
  - (* the call of CancelWithWait *)
    injection H as <-. simpl. split; [rewrite length_app; lia|].
    intros i a' Hi. apply lookup_snoc_Some in Hi as [[_ Hi]|[_ Hi]];
      [by left|discriminate Hi].
  - destruct (mu cw0); [done|]. injection H as <-. by apply Hsame.
  - unfold monitor_step in H.
    destruct (monitors w !! m) as [[a' pc]|] eqn:Hm0; [|done]. simpl in H.
    destruct (instances w !! a') as [cw0|] eqn:Ha'; [|done].
    destruct pc as [| |t| | ns cbs| |[|f fs]| |]; split_ifs H;
      injection H as <-; try (by apply Hsame).
    (* Broadcast *)
    simpl. split; [by rewrite length_map|].
    intros i a0 Hi. left.
    rewrite list_lookup_fmap in Hi.
    destruct (waiters w !! i) as [[a1 pc1]|]; [|done]. simpl in Hi.
    unfold wake_one in Hi. simpl in Hi.
    destruct pc1; try done. by case_decide.
  - unfold waiter_step in H.
    destruct (waiters w !! i) as [[a' pc]|] eqn:Hw; [|done]. simpl in H.
    destruct (instances w !! a') as [cw0|] eqn:Ha'; [|done].
    destruct pc; split_ifs H; injection H as <-; simpl;
      try (by apply Hsame);
      (split; [by rewrite length_insert|]);
      intros j a0 Hj;
      apply list_lookup_insert_Some in Hj as [(<-&Hj&_)|[_ Hj]];
      try (by left); try discriminate Hj.
    injection Hj as <-. right. eauto.
Qed.

(** ** The generation invariant *)

Lemma final_state_cases (e : error) :
  (error_is e context_Canceled = true ∧ final_state e = Canceled) ∨
  (error_is e context_Canceled = false ∧
   error_is e context_DeadlineExceeded = true ∧ final_state e = Deadlined) ∨
  (error_is e context_Canceled = false ∧
   error_is e context_DeadlineExceeded = false ∧ final_state e = Created).
Proof.
  unfold final_state.
  destruct (error_is e context_Canceled); [by left|].
  destruct (error_is e context_DeadlineExceeded); right; [by left|by right].
Qed.

Lemma final_state_not_Running (e : error) : final_state e ≠ Running.
Proof. by destruct (final_state_cases e) as [[_ ->]|[(_&_&->)|(_&_&->)]]. Qed.

Lemma final_state_not_Finished (e : error) : final_state e ≠ Finished.
Proof. by destruct (final_state_cases e) as [[_ ->]|[(_&_&->)|(_&_&->)]]. Qed.

Lemma classify_Some (e : error) (cw : Context) :
  fst (classify (Some e) cw) = final_state e ∧
  (error_is e context_Canceled = true →
   snd (classify (Some e) cw) = onCancel cw).
Proof.
  unfold classify, final_state; simpl.
  destruct (error_is e context_Canceled); [done|].
  by destruct (error_is e context_DeadlineExceeded).
Qed.

Lemma phase_done (w : World) (a t : nat) (base L : list callback)
    (cw : Context) (pc : mpc) :
  phase w a t base L cw pc → done cw = true → past_dispatch pc.
Proof.
  intros Hp Hd. unfold past_dispatch.
  destruct pc; simpl in Hp; auto; exfalso; try done;
    repeat match goal with
           | H : ∃ _, _ |- _ => destruct H
           | H : _ ∧ _ |- _ => destruct H
           end; congruence.
Qed.

Lemma phase_frame (w w' : World) (a t : nat) (base L : list callback)
    (cw cw' : Context) (pc : mpc) :
  phase w a t base L cw pc →
  same_core cw cw' → state cw' = state cw → done cw' = done cw →
  invoked w' a = invoked w a →
  (∀ e, token_Err (tokens w) t = Some e → token_Err (tokens w') t = Some e) →
  phase w' a t base L cw' pc.
Proof.
  intros Hp (_&_&_&_&Hpre&_) Hs Hd Hi Ht.
  destruct pc; simpl in *; rewrite ?Hs, ?Hd, ?Hi.
  - destruct Hp as (?&?&?). repeat split; try done. by etrans.
  - destruct Hp as (?&?&?). repeat split; try done. by etrans.
  - destruct Hp as (?&?&?&?). repeat split; try done. by etrans.
  - destruct Hp as ([e He]&?&?&?). repeat split; try done; [|by etrans].
    exists e. by apply Ht.
  - destruct Hp as (e&He&?&?&?&Hc). exists e. repeat split; auto.
    + by apply Hc.
    + etrans; [by apply Hc|done].
  - done.
  - destruct Hp as (e&snap&He&?&?&?&Hc). exists e, snap. repeat split; auto.
    + by apply Hc.
    + etrans; [by apply Hc|done].
  - destruct Hp as (e&snap&He&?&?&?&Hc). exists e, snap. repeat split; auto.
    + by apply Hc.
    + etrans; [by apply Hc|done].
  - destruct Hp as (e&snap&He&?&?&?&Hc). exists e, snap. repeat split; auto.
    + by apply Hc.
    + etrans; [by apply Hc|done].
Qed.

(** The step of the generation's own monitor. *)
Lemma gen_monitor_step (w w' : World) (a m t : nat) (base L : list callback)
    (cw : Context) (pc : mpc) :
  instances w !! a = Some cw → tok (ctx cw) = t →
  monitors w !! m = Some {| m_cw := a; m_pc := pc |} →
  phase w a t base L cw pc →
  step w (LMonitor m) = Some w' →
  ∃ cw' pc', instances w' !! a = Some cw' ∧ same_core cw cw' ∧
    monitors w' !! m = Some {| m_cw := a; m_pc := pc' |} ∧
    phase w' a t base L cw' pc' ∧
    (past_dispatch pc → past_dispatch pc').
Proof.
  intros Ha Htok Hm Hp H. step_inv H. simpl in H.
  unfold monitor_step in H. rewrite Hm in H. simpl in H. rewrite Ha in H.
  assert (Hlt : a < length (instances w)) by by eapply lookup_lt_Some.
  assert (Hmlt : m < length (monitors w)) by by eapply lookup_lt_Some.
  destruct pc as [| |t'| | ns cbs| |[|f fs]| |]; simpl in Hp.
  - (* setState(Running) *)
    destruct (mu cw); [done|]. injection H as <-.
    destruct Hp as (?&?&?).
    exists (setState cw Running), MSelect. simpl.
    rewrite !list_lookup_insert_eq by done.
    repeat split; try done. by intros [?|?].
  - (* cw.ctx.Done() *)
    injection H as <-. destruct Hp as (?&?&?).
    exists cw, (MBlocked (tok (ctx cw))). simpl.
    rewrite !list_lookup_insert_eq by done.
    repeat split; try done. by intros [?|?].
  - (* the done channel fires *)
    destruct Hp as (->&?&?&?).
    destruct (token_Err (tokens w) t) as [e|] eqn:He; [|done].
    injection H as <-. exists cw, MClassify. simpl.
    rewrite !list_lookup_insert_eq by done.
    repeat split; try done. by intros [?|?].
  - (* the switch *)
    destruct (mu cw); [done|].
    destruct Hp as ([e He]&?&?&?).
    unfold Err in H. rewrite Htok, He in H.
    destruct (classify_Some e cw) as [Hf Hs].
    destruct (classify (Some e) cw) as [ns cbs]. simpl in *.
    injection H as <-. exists cw, (MBranch ns cbs). simpl.
    rewrite !list_lookup_insert_eq by done.
    repeat split; try done; [|by intros [?|?]].
    exists e. repeat split; try done; by rewrite Hs.
  - (* newState != Running *)
    destruct (mu cw); [done|].
    destruct Hp as (e&He&?&?&->&Hc).
    rewrite bool_decide_eq_true_2 in H by apply final_state_not_Running.
    injection H as <-.
    exists (setState cw (final_state e)), (MCalls cbs). simpl.
    rewrite !list_lookup_insert_eq by done.
    repeat split; try done; [|by intros [?|?]].
    exists e, cbs. repeat split; try done.
    + by f_equal.
    + by apply Hc.
    + by apply Hc.
  - done.
  - (* cw.done = true *)
    injection H as <-. destruct Hp as (e&snap&He&?&?&Hi&Hc).
    exists (set_done cw true), MBroadcast. simpl.
    rewrite !list_lookup_insert_eq by done.
    repeat split; try done; [|by intros [?|?]].
    exists e, snap. rewrite app_nil_r in Hi. repeat split; try done.
    + by apply Hc.
    + by apply Hc.
  - (* f() *)
    injection H as <-. destruct Hp as (e&snap&He&?&?&Hi&Hc).
    exists cw, (MCalls fs). simpl.
    rewrite !list_lookup_insert_eq by done.
    repeat split; try done; [|by intros [?|?]].
    exists e, snap. repeat split; try done.
    + rewrite (invoked_snoc w _ a a f) by done.
      rewrite decide_True by done. by rewrite <- app_assoc.
    + by apply Hc.
    + by apply Hc.
  - (* Broadcast *)
    destruct (cond cw) as [c|]; injection H as <-.
    + exists cw, MExit. simpl.
      rewrite !list_lookup_insert_eq by done.
      repeat split; try done. intros _. by right.
    + exists cw, MBroadcast. simpl. by repeat split.
  - done.
Qed.

Lemma resets_Monitor (a m : nat) : resets a (LMonitor m) = false.
Proof. done. Qed.

(** Every step other than [Reset] of the object keeps the invariant of its
    generation. *)
Lemma gen_inv_step (a m t i0 : nat) (base L : list callback)
    (w w' : World) (l : label) :
  gen_inv a m t i0 base L w → step w l = Some w' → resets a l = false →
  gen_inv a m t i0 base L w'.
Proof.
  intros (cw&pc&Ha&Htok&Hcan&Htlt&Hm&Hp&Hoth&Hi0&Hret) H Hr.
  destruct (step_tokens _ _ _ H) as [Hlen Htoks].
  destruct (step_waiters _ _ _ H) as [Hwlen Hwret].
  assert (Halt : a < length (instances w)) by by eapply lookup_lt_Some.
  (* the object, the monitor and the phase *)
  assert (Hcore : ∃ cw' pc', instances w' !! a = Some cw' ∧ same_core cw cw' ∧
    monitors w' !! m = Some {| m_cw := a; m_pc := pc' |} ∧
    phase w' a t base L cw' pc' ∧ (past_dispatch pc → past_dispatch pc')).
  { destruct (decide (l = LMonitor m)) as [->|Hl].
    - by eapply gen_monitor_step.
    - destruct (step_instance _ _ _ _ _ H Ha Hr) as (cw'&Ha'&Hc&Hsd).
      exists cw', pc.
      assert (state cw' = state cw ∧ done cw' = done cw) as [Hs Hd].
      { destruct Hsd as [?|(m'&pc'&->&Hm'&Hnp)]; [done|].
        exfalso. apply Hnp. apply (Hoth m' _ ltac:(congruence) Hm'). done. }
      assert (invoked w' a = invoked w a) as Hinv.
      { destruct (step_invoked _ _ _ a H) as [?|(m'&f&fs&->&Hm'&_)]; [done|].
        exfalso. destruct (Hoth m' _ ltac:(congruence) Hm') as [?|?]; done. }
      split; [done|]. split; [done|].
      split; [by eapply step_monitor_other|].
      split; [eapply phase_frame; eauto|done]. }
  destruct Hcore as (cw'&pc'&Ha'&Hc&Hm'&Hp'&Hpd).
  destruct Hc as (Hctok&Hccan&_).
  exists cw', pc'. repeat split; try done; try congruence; try lia.
  - (* the other monitors of the object *)
    intros m2 mon2 Hne Hm2 Hcw2.
    destruct (step_monitor_inv _ _ _ _ _ H Hm2)
      as [Hold|[(->&pc2&Hold&Himp)|(Hst&[Hres|Hge])]].
    + by eapply Hoth.
    + apply Himp. rewrite Hcw2 in Hold. by apply (Hoth m2 _ Hne Hold).
    + rewrite Hcw2 in Hres. congruence.
    + rewrite Hcw2 in Hge. lia.
  - (* calls of CancelWithWait that have returned *)
    intros i Hi Hw. destruct (Hwret _ _ Hw) as [Hold|(cw0&Ha0&Hd0)].
    + apply Hpd. by eapply Hret.
    + rewrite Ha in Ha0. injection Ha0 as <-.
      apply Hpd. by eapply phase_done.
Qed.

Lemma no_Reset_cons (a : nat) (l : label) (sched : list label) :
  no_Reset a (l :: sched) ↔ resets a l = false ∧ no_Reset a sched.
Proof.
  unfold no_Reset; simpl. rewrite andb_true_iff, negb_true_iff. done.
Qed.


Lemma run_app (w : World) (s1 s2 : list label) :
  run w (s1 ++ s2) = match run w s1 with
                     | Some w1 => run w1 s2
                     | None => None
                     end.
Proof.
  revert w. induction s1 as [|l s1 IH]; intros w; simpl; [done|].
  destruct (step w l); [apply IH|done].
Qed.

Lemma run_tokens (sched : list label) (w w' : World) (t : nat) (e : error) :
  run w sched = Some w' → token_Err (tokens w) t = Some e →
  token_Err (tokens w') t = Some e.
Proof.
  revert w. induction sched as [|l sched IH]; intros w Hrun He.
  - by injection Hrun as <-.
  - simpl in Hrun. destruct (step w l) as [w1|] eqn:Hstep; [|done].
    eapply IH; [done|]. by eapply step_tokens.
Qed.


(** A constructor starts a generation. *)
Lemma new_Context_gen_inv (w : World) (parent : Parent) (e : option error) :
  wf_world w →
  gen_inv (length (instances w)) (length (monitors w)) (length (tokens w))
          (length (waiters w)) [] [] (new_Context w parent e).
Proof.
  intros (Hmon&Hwait&Hlog).
  eexists _, MStart. unfold new_Context; simpl.
  rewrite !list_lookup_middle by done. repeat split; try done.
  - rewrite length_app; simpl; lia.
  - unfold invoked; simpl.
    induction (log w) as [|[a f] l IH]; [done|].
    apply Forall_cons in Hlog as [Hlt Hlog]. simpl in Hlt.
    rewrite filter_cons_False by (simpl; lia). by apply IH.
  - intros m' mon Hne Hm' Hcw.
    apply lookup_snoc_Some in Hm' as [[_ Hm']|[? _]]; [|done].
    rewrite Forall_lookup in Hmon. apply Hmon in Hm'. lia.
  - intros i Hi Hw. exfalso.
    rewrite Forall_lookup in Hwait. apply Hwait in Hw. simpl in Hw. lia.
Qed.

(** ** Cancel and wait *)



(** ** Reset and the next generation *)





(** ** The monitor runs to its end, and [CancelWithWait] can return *)

Lemma run_replicate_S (w w1 : World) (l : label) (k : nat) (w' : World) :
  step w l = Some w1 → run w1 (replicate k l) = Some w' →
  run w (replicate (S k) l) = Some w'.
Proof. intros H1 H2. simpl. by rewrite H1. Qed.

Lemma Broadcast_keeps_WCheck (w : World) (c i a : nat) :
  waiters w !! i = Some {| w_cw := a; w_pc := WCheck |} →
  waiters (Broadcast w c) !! i = Some {| w_cw := a; w_pc := WCheck |}.
Proof.
  intros H. unfold Broadcast; simpl.
  change (map (wake_one c) (waiters w)) with (wake_one c <$> waiters w).
  by rewrite list_lookup_fmap, H.
Qed.

(** From inside the dispatch loop. *)
Lemma monitor_finishes_calls (a m t c i : nat) (fs : list callback)
    (w : World) (cw : Context) :
  can_run a m t c i w cw (MCalls fs) →
  ∃ k w' cw', run w (replicate k (LMonitor m)) = Some w' ∧
    can_run a m t c i w' cw' MExit ∧ done cw' = true.
Proof.
  revert w. induction fs as [|f fs IH];
    intros w (Hcr&Ha&Hmu&Hc&Htok&Hm&Ht&Hw).
  - (* cw.done = true, then Broadcast *)
    assert (Halt : a < length (instances w)) by by eapply lookup_lt_Some.
    assert (Hmlt : m < length (monitors w)) by by eapply lookup_lt_Some.
    exists 2. eexists _, (set_done cw true). split.
    + simpl. unfold step at 1. rewrite Hcr. unfold monitor_step.
      rewrite Hm; simpl. rewrite Ha.
      unfold step; simpl. rewrite Hcr. unfold monitor_step; simpl.
      rewrite !list_lookup_insert_eq by done. simpl. rewrite Hc.
      reflexivity.
    + split; [|done]. repeat split; simpl; try done.
      * by apply list_lookup_insert_eq.
      * rewrite list_insert_insert_eq.
        apply list_lookup_insert_eq. done.
      * change (map (wake_one c) (waiters w))
          with (wake_one c <$> waiters w).
        by rewrite list_lookup_fmap, Hw.
  - (* f() *)
    assert (Hmlt : m < length (monitors w)) by by eapply lookup_lt_Some.
    destruct (IH (set_mon (add_log w (a, f)) m a (MCalls fs)))
      as (k&w'&cw'&Hrun&Hcan&Hd).
    { repeat split; simpl; try done. by apply list_lookup_insert_eq. }
    exists (S k), w', cw'. split; [|done].
    eapply run_replicate_S; [|done].
    unfold step. rewrite Hcr. unfold monitor_step. rewrite Hm; simpl.
    by rewrite Ha.
Qed.

(** From any point before the end of the dispatch loop. *)
Lemma monitor_finishes (a m t c i : nat) (pc : mpc) (w : World)
    (cw : Context) :
  can_run a m t c i w cw pc →
  (∀ t', pc = MBlocked t' → t' = t) → ¬ past_dispatch pc →
  ∃ k w' cw', run w (replicate k (LMonitor m)) = Some w' ∧
    can_run a m t c i w' cw' MExit ∧ done cw' = true.
Proof.
  intros Hcan Hbl Hnp.
  assert (Hone : ∀ w0 cw0 pc0 w1 cw1 pc1,
    can_run a m t c i w0 cw0 pc0 →
    step w0 (LMonitor m) = Some w1 →
    (can_run a m t c i w1 cw1 pc1 →
     ∃ k w' cw', run w1 (replicate k (LMonitor m)) = Some w' ∧
       can_run a m t c i w' cw' MExit ∧ done cw' = true) →
    can_run a m t c i w1 cw1 pc1 →
    ∃ k w' cw', run w0 (replicate k (LMonitor m)) = Some w' ∧
      can_run a m t c i w' cw' MExit ∧ done cw' = true).
  { intros w0 cw0 pc0 w1 cw1 pc1 _ Hs Hk Hc1.
    destruct (Hk Hc1) as (k&w'&cw'&Hr&Hc'&Hd).
    exists (S k), w', cw'. split; [|done]. by eapply run_replicate_S. }
  assert (Hstep : ∀ w0 cw0 pc0,
    can_run a m t c i w0 cw0 pc0 →
    step w0 (LMonitor m) = monitor_step w0 m ∧
    monitors w0 !! m = Some {| m_cw := a; m_pc := pc0 |} ∧
    instances w0 !! a = Some cw0 ∧ mu cw0 = false ∧
    a < length (instances w0) ∧ m < length (monitors w0)).
  { intros w0 cw0 pc0 (Hcr&Ha&Hmu&Hc&Htok&Hm&Ht&Hw).
    unfold step. rewrite Hcr. repeat split; try done;
      by eapply lookup_lt_Some. }
  (* the last stages first *)
  assert (Hcalls : ∀ w0 cw0 fs, can_run a m t c i w0 cw0 (MCalls fs) →
    ∃ k w' cw', run w0 (replicate k (LMonitor m)) = Some w' ∧
      can_run a m t c i w' cw' MExit ∧ done cw' = true).
  { intros. by eapply monitor_finishes_calls. }
  assert (Hrange : ∀ w0 cw0, can_run a m t c i w0 cw0 MRangeOnDone →
    ∃ k w' cw', run w0 (replicate k (LMonitor m)) = Some w' ∧
      can_run a m t c i w' cw' MExit ∧ done cw' = true).
  { intros w0 cw0 Hc0.
    destruct (Hstep _ _ _ Hc0) as (Hs&Hm&Ha&Hmu&Halt&Hmlt).
    destruct Hc0 as (Hcr&_&_&Hc&Htok&_&Ht&Hw).
    eapply (Hone w0 cw0 _ _ cw0 (MCalls (onDone cw0))).
    - by repeat split.
    - rewrite Hs. unfold monitor_step. rewrite Hm; simpl. by rewrite Ha.
    - apply Hcalls.
    - repeat split; simpl; try done. by apply list_lookup_insert_eq. }
  assert (Hbranch : ∀ w0 cw0 ns cbs,
    can_run a m t c i w0 cw0 (MBranch ns cbs) →
    ∃ k w' cw', run w0 (replicate k (LMonitor m)) = Some w' ∧
      can_run a m t c i w' cw' MExit ∧ done cw' = true).
  { intros w0 cw0 ns cbs Hc0.
    destruct (Hstep _ _ _ Hc0) as (Hs&Hm&Ha&Hmu&Halt&Hmlt).
    destruct Hc0 as (Hcr&_&_&Hc&Htok&_&Ht&Hw).
    destruct (bool_decide (ns ≠ Running)) eqn:Hns.
    - eapply (Hone w0 cw0 _ _ (setState cw0 ns) (MCalls cbs)).
      + by repeat split.
      + rewrite Hs. unfold monitor_step. rewrite Hm; simpl.
        by rewrite Ha, Hmu, Hns.
      + apply Hcalls.
      + repeat split; simpl; try done; by apply list_lookup_insert_eq.
    - eapply (Hone w0 cw0 _ _ (setState cw0 Finished) MRangeOnDone).
      + by repeat split.
      + rewrite Hs. unfold monitor_step. rewrite Hm; simpl.
        by rewrite Ha, Hmu, Hns.
      + apply Hrange.
      + repeat split; simpl; try done; by apply list_lookup_insert_eq. }
  assert (Hclassify : ∀ w0 cw0, can_run a m t c i w0 cw0 MClassify →
    ∃ k w' cw', run w0 (replicate k (LMonitor m)) = Some w' ∧
      can_run a m t c i w' cw' MExit ∧ done cw' = true).
  { intros w0 cw0 Hc0.
    destruct (Hstep _ _ _ Hc0) as (Hs&Hm&Ha&Hmu&Halt&Hmlt).
    destruct Hc0 as (Hcr&_&_&Hc&Htok&_&Ht&Hw).
    destruct (classify (Err w0 cw0) cw0) as [ns cbs] eqn:Hcl.
    eapply (Hone w0 cw0 _ _ cw0 (MBranch ns cbs)).
    - by repeat split.
    - rewrite Hs. unfold monitor_step. rewrite Hm; simpl.
      by rewrite Ha, Hmu, Hcl.
    - apply Hbranch.
    - repeat split; simpl; try done. by apply list_lookup_insert_eq. }
  assert (Hblocked : ∀ w0 cw0, can_run a m t c i w0 cw0 (MBlocked t) →
    ∃ k w' cw', run w0 (replicate k (LMonitor m)) = Some w' ∧
      can_run a m t c i w' cw' MExit ∧ done cw' = true).
  { intros w0 cw0 Hc0.
    destruct (Hstep _ _ _ Hc0) as (Hs&Hm&Ha&Hmu&Halt&Hmlt).
    destruct Hc0 as (Hcr&_&_&Hc&Htok&_&Ht&Hw).
    eapply (Hone w0 cw0 _ _ cw0 MClassify).
    - by repeat split.
    - rewrite Hs. unfold monitor_step. rewrite Hm; simpl. rewrite Ha.
      by destruct Ht as [e ->].
    - apply Hclassify.
    - repeat split; simpl; try done. by apply list_lookup_insert_eq. }
  assert (Hselect : ∀ w0 cw0, can_run a m t c i w0 cw0 MSelect →
    ∃ k w' cw', run w0 (replicate k (LMonitor m)) = Some w' ∧
      can_run a m t c i w' cw' MExit ∧ done cw' = true).
  { intros w0 cw0 Hc0.
    destruct (Hstep _ _ _ Hc0) as (Hs&Hm&Ha&Hmu&Halt&Hmlt).
    destruct Hc0 as (Hcr&_&_&Hc&Htok&_&Ht&Hw).
    eapply (Hone w0 cw0 _ _ cw0 (MBlocked t)).
    - by repeat split.
    - rewrite Hs. unfold monitor_step. rewrite Hm; simpl.
      by rewrite Ha, Htok.
    - apply Hblocked.
    - repeat split; simpl; try done. by apply list_lookup_insert_eq. }
  destruct pc as [| |t'| | ns cbs| |fs| |].
  - destruct (Hstep _ _ _ Hcan) as (Hs&Hm&Ha&Hmu&Halt&Hmlt).
    destruct Hcan as (Hcr&_&_&Hc&Htok&_&Ht&Hw).
    eapply (Hone w cw _ _ (setState cw Running) MSelect).
    + by repeat split.
    + rewrite Hs. unfold monitor_step. rewrite Hm; simpl.
      by rewrite Ha, Hmu.
    + apply Hselect.
    + repeat split; simpl; try done; by apply list_lookup_insert_eq.
  - by eapply Hselect.
  - rewrite (Hbl t' eq_refl) in Hcan. by eapply Hblocked.
  - by eapply Hclassify.
  - by eapply Hbranch.
  - by eapply Hrange.
  - by eapply Hcalls.
  - destruct Hnp. by left.
  - destruct Hnp. by right.
Qed.

Lemma no_Reset_app (a : nat) (s1 s2 : list label) :
  no_Reset a s1 → no_Reset a s2 → no_Reset a (s1 ++ s2).
Proof.
  unfold no_Reset. rewrite forallb_app. by intros -> ->.
Qed.

Lemma no_Reset_replicate_Monitor (a m k : nat) :
  no_Reset a (replicate k (LMonitor m)).
Proof. unfold no_Reset. by induction k. Qed.

(** In a generation whose object has its condition variable and a free
    lock, a call of [CancelWithWait] can return: let the monitor run to
    its end, then let the call test [done]. *)
Lemma CancelWithWait_can_return (a m t i0 c : nat) (base L : list callback)
    (w : World) (cw : Context) :
  gen_inv a m t i0 base L w → crashed w = false →
  instances w !! a = Some cw → mu cw = false → cond cw = Some c →
  ∃ sched w',
    no_Reset a sched ∧
    run w (LCancelWithWait a :: sched) = Some w' ∧
    waiters w' !! length (waiters w)
      = Some {| w_cw := a; w_pc := WReturned |}.
Proof.
  intros (cw0&pc&Ha0&Htok&Hcan&Htlt&Hm&Hp&_) Hcr Ha Hmu Hc.
  rewrite Ha in Ha0. injection Ha0 as <-.
  set (i := length (waiters w)).
  set (w1 := set_waiters (Cancel w cw)
               (waiters w ++ [{| w_cw := a; w_pc := WCheck |}])).
  assert (Hs1 : step w (LCancelWithWait a) = Some w1).
  { unfold step, on_instance. by rewrite Hcr, Ha. }
  assert (Ht1 : is_Some (token_Err (tokens w1) t)).
  { simpl. unfold cancel_token. rewrite Hcan.
    destruct (token_Err (tokens w) t) as [e|] eqn:He.
    - exists e. by apply token_Err_settle_other.
    - eexists. by apply token_Err_settle_fresh. }
  assert (Hw1 : waiters w1 !! i = Some {| w_cw := a; w_pc := WCheck |}).
  { simpl. by apply list_lookup_middle. }
  assert (Hret : ∀ w2 cw2, crashed w2 = false →
            instances w2 !! a = Some cw2 → mu cw2 = false →
            done cw2 = true →
            waiters w2 !! i = Some {| w_cw := a; w_pc := WCheck |} →
            ∃ w', step w2 (LWaiter i) = Some w' ∧
                  waiters w' !! i = Some {| w_cw := a; w_pc := WReturned |}).
  { intros w2 cw2 Hcr2 Ha2 Hmu2 Hd2 Hw2. eexists. split.
    - unfold step. rewrite Hcr2. unfold waiter_step. rewrite Hw2. simpl.
      by rewrite Ha2, Hmu2, Hd2.
    - simpl. apply list_lookup_insert_eq. by eapply lookup_lt_Some. }
  assert (Hpd : past_dispatch pc ∨ ¬ past_dispatch pc).
  { unfold past_dispatch. destruct pc; auto; right; by intros [?|?]. }
  destruct Hpd as [Hpd|Hnp].
  - (* the monitor is already past its loop *)
    assert (Hd : done cw = true).
    { destruct Hpd as [-> | ->]; by destruct Hp as (?&?&?&?&?). }
    destruct (Hret w1 cw Hcr Ha Hmu Hd Hw1) as (w'&Hs&Hw').
    exists [LWaiter i], w'. split; [done|]. split; [|done].
    simpl. by rewrite Hs1, Hs.
  - assert (Hcan1 : can_run a m t c i w1 cw pc) by by repeat split.
    assert (Hbl : ∀ t', pc = MBlocked t' → t' = t).
    { intros t' ->. by destruct Hp as (->&_). }
    destruct (monitor_finishes _ _ _ _ _ _ _ _ Hcan1 Hbl Hnp)
      as (k&w2&cw2&Hrun&(Hcr2&Ha2&Hmu2&_&_&_&_&Hw2)&Hd2).
    destruct (Hret w2 cw2 Hcr2 Ha2 Hmu2 Hd2 Hw2) as (w'&Hs&Hw').
    exists (replicate k (LMonitor m) ++ [LWaiter i]), w'.
    split; [apply no_Reset_app; [apply no_Reset_replicate_Monitor|done]|].
    split; [|done].
    simpl. rewrite Hs1, run_app, Hrun. simpl. by rewrite Hs.
Qed.


(** ** Objects without a monitor *)

Lemma step_instances_length (w w' : World) (l : label) :
  step w l = Some w' →
  length (instances w) ≤ length (instances w') ∧
  (is_constructor l = true →
   length (instances w') = S (length (instances w))).
Proof.
  intros H. step_inv H.
  destruct l; simpl in H; try on_inst H;
    try (injection H as <-; simpl;
         rewrite ?length_insert, ?length_app; simpl; split; [lia|];
         first [done | intros _; lia]).
  - destruct (mu cw0); [done|]. injection H as <-. simpl.
    rewrite length_insert. done.
  - unfold monitor_step in H.
    destruct (monitors w !! m) as [[a' pc]|] eqn:Hm0; [|done]. simpl in H.
    destruct (instances w !! a') as [cw0|] eqn:Ha'; [|done].
    destruct pc as [| |t| | ns cbs| |[|f fs]| |]; split_ifs H;
      injection H as <-; simpl; rewrite ?length_insert; done.
  - unfold waiter_step in H.
    destruct (waiters w !! i) as [[a' pc]|] eqn:Hw; [|done]. simpl in H.
    destruct (instances w !! a') as [cw0|] eqn:Ha'; [|done].
    destruct pc; split_ifs H; injection H as <-; simpl;
      rewrite ?length_insert; done.
Qed.

(** A monitor stays attached to its object; a new monitor is attached to
    the object being reset or to the object a constructor has just made. *)
Lemma step_attach (w w' : World) (l : label) (m : nat) (mon' : Monitor) :
  step w l = Some w' → monitors w' !! m = Some mon' →
  (∃ mon, monitors w !! m = Some mon ∧ m_cw mon = m_cw mon') ∨
  (resets (m_cw mon') l = true ∧ m_cw mon' < length (instances w)) ∨
  (is_constructor l = true ∧ m_cw mon' = length (instances w)).
Proof.
  intros H Hm. step_inv H.
  destruct l; simpl in H; try on_inst H;
    try (injection H as <-; simpl in Hm; left; by eexists).
  - injection H as <-. simpl in Hm.
    apply lookup_snoc_Some in Hm as [[_ Hm]|[_ <-]]; [left; by eexists|].
    by right; right.
  - injection H as <-. simpl in Hm.
    apply lookup_snoc_Some in Hm as [[_ Hm]|[_ <-]]; [left; by eexists|].
    by right; right.
  - destruct (mu cw0); [done|]. injection H as <-. simpl in Hm.
    apply lookup_snoc_Some in Hm as [[_ Hm]|[_ <-]]; [left; by eexists|].
    right; left. simpl. split; [by apply bool_decide_eq_true|].
    by eapply lookup_lt_Some.
  - unfold monitor_step in H.
    destruct (monitors w !! m0) as [[a' pc]|] eqn:Hm0; [|done]. simpl in H.
    destruct (instances w !! a') as [cw0|] eqn:Ha'; [|done].
    destruct pc as [| |t| | ns cbs| |[|f fs]| |]; split_ifs H;
      injection H as <-; simpl in Hm; try (left; by eexists).
    all: apply list_lookup_insert_Some in Hm as [(<-&<-&_)|[_ Hm]];
      left; by eexists.
  - unfold waiter_step in H.
    destruct (waiters w !! i) as [[a' pc]|] eqn:Hw; [|done]. simpl in H.
    destruct (instances w !! a') as [cw0|] eqn:Ha'; [|done].
    destruct pc; split_ifs H; injection H as <-; left; by eexists.
Qed.


(** A callback gets into a registry by registration or by [Clone]. *)
Lemma step_registered (w w' : World) (l : label) (a : nat) (cw' : Context)
    (g : callback) :
  step w l = Some w' → instances w' !! a = Some cw' → g ∈ registered cw' →
  (∃ cw, instances w !! a = Some cw ∧ g ∈ registered cw ∧
         resets a l = false) ∨
  registers g a l = true ∨
  (∃ a0 cw0, l = LClone a0 ∧ a = length (instances w) ∧
             instances w !! a0 = Some cw0 ∧ g ∈ registered cw0).
Proof.
  intros H Ha Hg. step_inv H.
  assert (Hnil : g ∈ @nil callback → False) by by intros ?%elem_of_nil.
  assert (Hupd : ∀ a0 cw0 x, instances w !! a0 = Some cw0 →
    instances w' = <[a0 := x]> (instances w) →
    registered x = registered cw0 → resets a l = false →
    (∃ cw, instances w !! a = Some cw ∧ g ∈ registered cw ∧
           resets a l = false) ∨
    registers g a l = true ∨
    (∃ a0 cw0, l = LClone a0 ∧ a = length (instances w) ∧
               instances w !! a0 = Some cw0 ∧ g ∈ registered cw0)).
  { intros a0 cw0 x Ha0 Heq Hreg Hres. rewrite Heq in Ha.
    apply list_lookup_insert_Some in Ha as [(<-&<-&_)|[_ Ha]];
      left; eexists; split; try done. by rewrite <- Hreg. }
  destruct l; simpl in H; try on_inst H;
    try (injection H as <-; simpl in Ha; left; by eexists).
  - injection H as <-. simpl in Ha.
    apply lookup_snoc_Some in Ha as [[_ Ha]|[_ <-]];
      [left; by eexists|by destruct Hnil].
  - injection H as <-. simpl in Ha.
    apply lookup_snoc_Some in Ha as [[_ Ha]|[_ <-]];
      [left; by eexists|by destruct Hnil].
  - injection H as <-. simpl in Ha.
    apply list_lookup_insert_Some in Ha as [(<-&<-&_)|[_ Ha]];
      [|left; by eexists].
    destruct f as [f|]; [|left; by eexists]. simpl.
    unfold registered in *; simpl in Hg. rewrite !elem_of_app in Hg.
    rewrite list_elem_of_singleton in Hg.
    destruct Hg as [[Hg| ->]|Hg].
    + left. eexists. split; [done|]. split; [|done].
      rewrite !elem_of_app. by auto.
    + right; left. by rewrite !bool_decide_eq_true_2.
    + left. eexists. split; [done|]. split; [|done].
      rewrite !elem_of_app. by auto.
  - injection H as <-. simpl in Ha.
    apply list_lookup_insert_Some in Ha as [(<-&<-&_)|[_ Ha]];
      [|left; by eexists].
    destruct f as [f|]; [|left; by eexists]. simpl.
    unfold registered in *; simpl in Hg. rewrite !elem_of_app in Hg.
    rewrite list_elem_of_singleton in Hg.
    destruct Hg as [Hg|[[Hg| ->]|Hg]].
    + left. eexists. split; [done|]. split; [|done].
      rewrite !elem_of_app. by auto.
    + left. eexists. split; [done|]. split; [|done].
      rewrite !elem_of_app. by auto.
    + right; left. by rewrite !bool_decide_eq_true_2.
    + left. eexists. split; [done|]. split; [|done].
      rewrite !elem_of_app. by auto.
  - injection H as <-. simpl in Ha.
    apply list_lookup_insert_Some in Ha as [(<-&<-&_)|[_ Ha]];
      [|left; by eexists].
    destruct f as [f|]; [|left; by eexists]. simpl.
    unfold registered in *; simpl in Hg. rewrite !elem_of_app in Hg.
    rewrite list_elem_of_singleton in Hg.
    destruct Hg as [Hg|[Hg|[Hg| ->]]].
    + left. eexists. split; [done|]. split; [|done].
      rewrite !elem_of_app. by auto.
    + left. eexists. split; [done|]. split; [|done].
      rewrite !elem_of_app. by auto.
    + left. eexists. split; [done|]. split; [|done].
      rewrite !elem_of_app. by auto.
    + right; left. by rewrite !bool_decide_eq_true_2.
  - injection H as <-. by eapply (Hupd _ _ _ Hinst).
  - destruct (mu cw0); [done|]. injection H as <-. simpl in Ha.
    apply list_lookup_insert_Some in Ha as [(<-&<-&_)|[Hne Ha]];
      [by destruct Hnil|].
    left. eexists. split; [done|]. split; [done|].
    simpl. by apply bool_decide_eq_false.
  - injection H as <-. simpl in Ha.
    apply lookup_snoc_Some in Ha as [[_ Ha]|[-> <-]];
      [left; by eexists|].
    right; right. by exists a0, cw0.
  - unfold monitor_step in H.
    destruct (monitors w !! m) as [[a' pc]|] eqn:Hm0; [|done]. simpl in H.
    destruct (instances w !! a') as [cw0|] eqn:Ha'; [|done].
    destruct pc as [| |t| | ns cbs| |[|f fs]| |]; split_ifs H;
      injection H as <-; simpl in Ha; try (left; by eexists);
      by eapply (Hupd _ _ _ Ha').
  - unfold waiter_step in H.
    destruct (waiters w !! i) as [[a' pc]|] eqn:Hw; [|done]. simpl in H.
    destruct (instances w !! a') as [cw0|] eqn:Ha'; [|done].
    destruct pc; split_ifs H; injection H as <-; simpl in Ha;
      try (left; by eexists); by eapply (Hupd _ _ _ Ha').
Qed.

(** The world stays well formed. *)
Lemma wf_world_step (w w' : World) (l : label) :
  wf_world w → step w l = Some w' → wf_world w'.
Proof.
  intros (Hmon&Hwait&Hlog) H.
  destruct (step_instances_length _ _ _ H) as [Hlen Hcon].
  split; [|split].
  - apply Forall_lookup. intros m mon' Hm.
    destruct (step_attach _ _ _ _ _ H Hm) as [(mon&Hold&<-)|[[_ ?]|[Hc ->]]].
    + rewrite Forall_lookup in Hmon. apply Hmon in Hold. lia.
    + lia.
    + rewrite (Hcon Hc). lia.
  - assert (Hw : Forall (λ x, w_cw x < length (instances w')) (waiters w)).
    { eapply Forall_impl; [done|]. simpl. intros; lia. }
    clear Hwait. step_inv H.
    destruct l; simpl in H; try on_inst H;
      try (injection H as <-; by simpl in * ).
    + injection H as <-. simpl in *. apply Forall_app. split; [done|].
      apply Forall_singleton. simpl. by eapply lookup_lt_Some.
    + destruct (mu cw0); [done|]. injection H as <-. by simpl in *.
    + unfold monitor_step in H.
      destruct (monitors w !! m) as [[a' pc]|] eqn:Hm0; [|done]. simpl in H.
      destruct (instances w !! a') as [cw0|] eqn:Ha'; [|done].
      destruct pc as [| |t| | ns cbs| |[|f fs]| |]; split_ifs H;
        injection H as <-; simpl in *; try done.
      apply Forall_fmap. eapply Forall_impl; [done|].
      intros [a1 pc1] Hlt. unfold wake_one. simpl in *.
      destruct pc1; try done. by case_decide.
    + unfold waiter_step in H.
      destruct (waiters w !! i) as [[a' pc]|] eqn:Hw0; [|done]. simpl in H.
      destruct (instances w !! a') as [cw0|] eqn:Ha'; [|done].
      assert (a' < length (instances w)) by by eapply lookup_lt_Some.
      destruct pc; split_ifs H; injection H as <-; simpl in *; try done;
        apply Forall_insert; try done; simpl; by rewrite length_insert.
  - assert (Hl : Forall (λ e, e.1 < length (instances w')) (log w)).
    { eapply Forall_impl; [done|]. simpl. intros; lia. }
    destruct (step_log _ _ _ H) as [->|(m&a&f&fs&->&Hm&->)]; [done|].
    apply Forall_app. split; [done|]. apply Forall_singleton. simpl.
    rewrite Forall_lookup in Hmon. apply Hmon in Hm. simpl in Hm. lia.
Qed.

Lemma wf_world_run (sched : list label) (w w' : World) :
  wf_world w → run w sched = Some w' → wf_world w'.
Proof.
  revert w. induction sched as [|l sched IH]; intros w Hwf Hrun.
  - by injection Hrun as <-.
  - simpl in Hrun. destruct (step w l) as [w1|] eqn:Hstep; [|done].
    eapply IH; [|done]. by eapply wf_world_step.
Qed.

Lemma wf_world_empty : wf_world empty_world.
Proof. by repeat split. Qed.







(** C9. The object [Clone] returns has a nil [cond] and an unset [done],
    whatever the original holds; [CancelWithWait] on it finds [done] unset
    and panics in [cond.Wait] on the nil pointer.  An object made by a
    constructor has a condition variable, [Reset] keeps it, and on an
    object that has one no step of [CancelWithWait] panics. *)
Theorem C9_Clone_CancelWithWait (w : World) (a : nat) (cw : Context) :
  crashed w = false → instances w !! a = Some cw →
  (cond (Clone cw) = None ∧ done (Clone cw) = false ∧ mu (Clone cw) = false) ∧
  (∃ w1 w2 w3,
     step w (LClone a) = Some w1 ∧
     instances w1 !! length (instances w) = Some (Clone cw) ∧
     step w1 (LCancelWithWait (length (instances w))) = Some w2 ∧
     step w2 (LWaiter (length (waiters w))) = Some w3 ∧
     crashed w3 = true) ∧
  (∀ parent e,
     ∃ cw', instances (new_Context w parent e) !! length (instances w)
            = Some cw' ∧ cond cw' = Some (length (instances w))) ∧
  (∀ parent,
     ∃ cw', instances (Reset w a cw parent) !! a = Some cw' ∧
            cond cw' = cond cw) ∧
  (∀ i x cw0 w',
     waiters w !! i = Some x → instances w !! w_cw x = Some cw0 →
     is_Some (cond cw0) → step w (LWaiter i) = Some w' →
     crashed w' = false).
Proof.
  intros Hcr Ha.
  assert (Halt : a < length (instances w)) by by eapply lookup_lt_Some.
  split; [done|]. split; [|split; [|split]].
  - eexists _, _, _.
    split; [unfold step, on_instance; by rewrite Hcr, Ha|]. simpl.
    split; [by apply list_lookup_middle|].
    split; [unfold step, on_instance; simpl;
            by rewrite Hcr, list_lookup_middle|].
    unfold step, waiter_step; simpl. rewrite Hcr.
    rewrite list_lookup_middle by done. simpl.
    rewrite list_lookup_middle by done. done.
  - intros parent e. eexists. unfold new_Context; simpl.
    split; [by apply list_lookup_middle|done].
  - intros parent. eexists. unfold Reset; simpl.
    split; [by apply list_lookup_insert_eq|done].
  - intros i [a' pc] cw0 w' Hi Ha' [c Hc] H. simpl in Ha'.
    unfold step in H. rewrite Hcr in H. unfold waiter_step in H.
    rewrite Hi in H. simpl in H. rewrite Ha', Hc in H.
    destruct pc; split_ifs H; injection H as <-; done.
Qed.

(** ** The moves of the state within a generation *)

Lemma gen_state_step (a m t i0 : nat) (base L : list callback)
    (w w' : World) (l : label) (cw : Context) :
  gen_inv a m t i0 base L w → gen_state a m w →
  instances w !! a = Some cw →
  step w l = Some w' → resets a l = false →
  gen_state a m w' ∧
  ∃ cw', instances w' !! a = Some cw' ∧
         state_move w' t (state cw) (state cw').
Proof.
  intros (cw0&pc&Ha&Htok&Hcan&Htlt&Hm&Hp&Hoth&_) (cw1&pc1&Ha1&Hm1&Hps)
    Ha0 H Hr.
  rewrite Ha in Ha0, Ha1. injection Ha0 as <-. injection Ha1 as <-.
  rewrite Hm in Hm1. injection Hm1 as <-.
  destruct (decide (l = LMonitor m)) as [->|Hl].
  - (* the monitor of the generation *)
    assert (Halt : a < length (instances w)) by by eapply lookup_lt_Some.
    assert (Hmlt : m < length (monitors w)) by by eapply lookup_lt_Some.
    step_inv H. simpl in H. unfold monitor_step in H.
    rewrite Hm in H. simpl in H. rewrite Ha in H.
    destruct pc as [| |t'| | ns cbs| |[|f fs]| |]; simpl in Hp, Hps;
      split_ifs H; try (by destruct Hp); injection H as <-.
    + split.
      * exists (setState cw0 Running), MSelect. simpl.
        by rewrite !list_lookup_insert_eq.
      * exists (setState cw0 Running). simpl.
        rewrite list_lookup_insert_eq by done.
        split; [done|]. right; left. done.
    + split.
      * eexists cw0, _. simpl. rewrite list_lookup_insert_eq by done. done.
      * exists cw0. split; [done|by left].
    + split.
      * eexists cw0, _. simpl. rewrite list_lookup_insert_eq by done. done.
      * exists cw0. split; [done|by left].
    + split.
      * eexists cw0, _. simpl. rewrite list_lookup_insert_eq by done. done.
      * exists cw0. split; [done|by left].
    + destruct Hp as (e&He&_&_&->&_). split.
      * eexists _, _. simpl. rewrite !list_lookup_insert_eq by done. done.
      * eexists. simpl. rewrite list_lookup_insert_eq by done.
        split; [done|]. right; right. split; [done|]. by exists e.
    + destruct Hp as (e&_&_&_&->&_).
      apply bool_decide_eq_false in Hif0.
      destruct Hif0. apply final_state_not_Running.
    + split.
      * eexists _, _. simpl. rewrite !list_lookup_insert_eq by done. done.
      * eexists. simpl. rewrite list_lookup_insert_eq by done.
        split; [done|by left].
    + split.
      * eexists cw0, _. simpl. rewrite list_lookup_insert_eq by done. done.
      * exists cw0. split; [done|by left].
    + split.
      * eexists cw0, _. simpl. rewrite list_lookup_insert_eq by done. done.
      * exists cw0. split; [done|by left].
    + split.
      * by eexists cw0, _.
      * exists cw0. split; [done|by left].
  - destruct (step_instance _ _ _ _ _ H Ha Hr) as (cw'&Ha'&_&Hsd).
    assert (state cw' = state cw0) as Hs.
    { destruct Hsd as [[? _]|(m'&pc'&->&Hm'&Hnp)]; [done|].
      exfalso. apply Hnp. apply (Hoth m' _ ltac:(congruence) Hm'). done. }
    split.
    + exists cw', pc. split; [done|].
      split; [by eapply step_monitor_other|].
      destruct pc; simpl in *; congruence.
    + exists cw'. split; [done|]. left. done.
Qed.

Lemma new_Context_gen_state (w : World) (parent : Parent) (e : option error) :
  gen_state (length (instances w)) (length (monitors w))
            (new_Context w parent e).
Proof.
  eexists _, MStart. unfold new_Context; simpl.
  by rewrite !list_lookup_middle.
Qed.

Lemma Reset_gen_state (w : World) (a : nat) (cw : Context) (parent : Parent) :
  instances w !! a = Some cw →
  gen_state a (length (monitors w)) (Reset w a cw parent).
Proof.
  intros Ha. eexists _, MStart. unfold Reset; simpl.
  rewrite list_lookup_middle by done.
  rewrite list_lookup_insert_eq by by eapply lookup_lt_Some. done.
Qed.

(** A move to the state of a classified sentinel is a move forward. *)
Lemma state_move_forward (w' : World) (t : nat) (s s' : State) :
  state_move w' t s s' →
  (∀ e, token_Err (tokens w') t = Some e →
        error_is e context_Canceled = true ∨
        error_is e context_DeadlineExceeded = true) →
  regresses s s' = false.
Proof.
  intros [->|[[-> ->]|(->&e&He&->)]] Hcl; [by destruct s|done|].
  destruct (Hcl e He) as [Hc|Hd].
  - unfold final_state. by rewrite Hc.
  - unfold final_state. rewrite Hd. by destruct (error_is e context_Canceled).
Qed.

(** In a generation, once a call of [CancelWithWait] has returned the
    generation is over. *)
Lemma returned_quiescent (a m t i0 i : nat) (base L : list callback)
    (w : World) :
  gen_inv a m t i0 base L w → i0 ≤ i →
  waiters w !! i = Some {| w_cw := a; w_pc := WReturned |} →
  quiescent w a.
Proof.
  intros (cw&pc&Ha&_&_&_&Hm&Hp&Hoth&_&Hret) Hi Hw.
  assert (Hpd := Hret i Hi Hw). split.
  - exists cw. split; [done|].
    destruct Hpd as [-> | ->]; by destruct Hp as (?&?&?&?&?).
  - intros m' mon Hm' Hcw. destruct (decide (m' = m)) as [->|Hne].
    + rewrite Hm in Hm'. by injection Hm' as <-.
    + by eapply Hoth.
Qed.

(** Every world reached from the empty one is well formed. *)
Lemma reachable_wf (sched : list label) (w : World) :
  run empty_world sched = Some w → wf_world w.
Proof. apply wf_world_run, wf_world_empty. Qed.

(** ** The monitor of the draft dispatches [onDone] on every cause *)

Lemma Draft_startMonitoring_onDone (cw : Draft.Context) (err : option error) :
  ∃ specific, snd (Draft.startMonitoring cw err) = specific ++ Draft.onDone cw.
Proof.
  destruct err as [[]|]; simpl;
    first [by eexists | by exists []].
Qed.

(** ** The scenarios *)

(** C1. In context.go the monitor does not dispatch [onDone] after a
    cancellation nor after a deadline: with one callback in each registry,
    when [CancelWithWait] has returned the state is [Canceled], [done] is
    set, the monitor has returned, and callback 3 of [onCancel] is all that
    was called; after the deadline the state is [Deadlined] and callback 5
    of [onTimeout] is all that was called.  Callback 7 of [onDone] is
    called in neither run. *)
Theorem C1_onDone_not_dispatched :
  (∃ w cw,
     run empty_world (scenario_registered ++ LCancelWithWait 0 :: scenario_wait)
       = Some w ∧
     instances w !! 0 = Some cw ∧ onDone cw = [7] ∧
     state cw = Canceled ∧ done cw = true ∧
     monitors w = [{| m_cw := 0; m_pc := MExit |}] ∧
     invoked w 0 = [3] ∧ 7 ∉ invoked w 0) ∧
  (∃ w cw,
     run empty_world scenario_timeout = Some w ∧
     instances w !! 0 = Some cw ∧ onDone cw = [7] ∧
     state cw = Deadlined ∧ done cw = true ∧
     monitors w = [{| m_cw := 0; m_pc := MExit |}] ∧
     invoked w 0 = [5] ∧ 7 ∉ invoked w 0).
Proof.
  split; eexists _, _; (split; [vm_compute; reflexivity|]);
    repeat (split; [reflexivity|]); vm_compute;
    intros H; repeat (apply elem_of_cons in H as [H|H]; [discriminate H|]);
    by apply elem_of_nil in H.
Qed.

(** C3. A token that settles with an error that is neither sentinel (here
    the error of a foreign parent) leaves the state at [Created], the zero
    value of [newState], not at [Finished]: when the monitor has returned
    and [CancelWithWait] has returned, [State()] is [Created] and
    [IsDone()] is false. *)
Theorem C3_unknown_sentinel_not_Finished :
  ∃ w cw,
    run empty_world (scenario_derived foreign_parent ++ scenario_finish)
      = Some w ∧
    instances w !! 0 = Some cw ∧
    Err w cw = Some (ErrOther 0) ∧
    errors_Is (Err w cw) context_Canceled = false ∧
    errors_Is (Err w cw) context_DeadlineExceeded = false ∧
    monitors w = [{| m_cw := 0; m_pc := MExit |}] ∧
    waiters w = [{| w_cw := 0; w_pc := WReturned |}] ∧
    done cw = true ∧ state cw = Created ∧ state cw ≠ Finished ∧
    IsDone cw = false.
Proof.
  eexists _, _. split; [vm_compute; reflexivity|].
  repeat (split; [reflexivity|]). split; [discriminate|reflexivity].
Qed.

(** C4. Within one generation the state goes back from [Running] to
    [Created]: the token of the object has settled with the error of a
    foreign parent, the state is [Running], and the next step of the
    monitor (the test [newState != Running] with [newState] at its zero
    value) sets it to [Created]. *)
Theorem C4_state_regresses :
  ∃ w1 w2 cw1 cw2,
    run empty_world (scenario_derived foreign_parent) = Some w1 ∧
    no_Reset 0 (scenario_derived foreign_parent ++ [LMonitor 0]) ∧
    step w1 (LMonitor 0) = Some w2 ∧
    instances w1 !! 0 = Some cw1 ∧ instances w2 !! 0 = Some cw2 ∧
    state cw1 = Running ∧ state cw2 = Created ∧
    regresses (state cw1) (state cw2) = true.
Proof.
  eexists _, _, _, _. split; [vm_compute; reflexivity|].
  split; [reflexivity|]. split; [vm_compute; reflexivity|].
  repeat (split; [reflexivity|]). reflexivity.
Qed.

(** The state [Finished] is never reached: no object is in it and no
    monitor is on its way to the else branch. *)
Lemma Finished_unreachable_step (w w' : World) (l : label) :
  no_Finished w → step w l = Some w' → no_Finished w'.
Proof.
  intros [Hi Hm] H. step_inv H.
  assert (Hset : ∀ a cw s, instances w !! a = Some cw → s ≠ Finished →
            Forall (λ cw, state cw ≠ Finished)
                   (<[a := setState cw s]> (instances w))).
  { intros. by apply Forall_insert. }
  assert (Hkeep : ∀ a cw x, instances w !! a = Some cw →
            state x = state cw →
            Forall (λ cw, state cw ≠ Finished) (<[a := x]> (instances w))).
  { intros a cw x Ha Hx. apply Forall_insert; [done|]. rewrite Hx.
    rewrite Forall_lookup in Hi. by eapply Hi. }
  destruct l; simpl in H; try on_inst H;
    try (injection H as <-; split; simpl; first [done | by eapply Hkeep]).
  - injection H as <-. split; simpl; apply Forall_app; split; try done;
      by apply Forall_singleton.
  - injection H as <-. split; simpl; apply Forall_app; split; try done;
      by apply Forall_singleton.
  - injection H as <-. split; simpl; [|done].
    eapply Hkeep; [done|]. by destruct f.
  - injection H as <-. split; simpl; [|done].
    eapply Hkeep; [done|]. by destruct f.
  - injection H as <-. split; simpl; [|done].
    eapply Hkeep; [done|]. by destruct f.
  - destruct (mu cw0); [done|]. injection H as <-. split; simpl.
    + by apply Forall_insert.
    + apply Forall_app; split; [done|]. by apply Forall_singleton.
  - injection H as <-. split; simpl; [|done].
    apply Forall_app; split; [done|]. apply Forall_singleton. simpl.
    rewrite Forall_lookup in Hi. by eapply Hi.
  - unfold monitor_step in H.
    destruct (monitors w !! m) as [[a' pc]|] eqn:Hm0; [|done]. simpl in H.
    destruct (instances w !! a') as [cw0|] eqn:Ha'; [|done].
    assert (Hpc : heads_for_else pc = false).
    { rewrite Forall_lookup in Hm. by apply (Hm _ _ Hm0). }
    destruct pc as [| |t| | ns cbs| |[|f fs]| |]; split_ifs H;
      injection H as <-; split; simpl; try done;
      try (by apply Forall_insert);
      try (by eapply Hkeep).
    + apply Forall_insert; [done|]. simpl.
      unfold classify in Hm1.
      destruct (errors_Is _ context_Canceled);
        [by injection Hm1 as <- <-|].
      destruct (errors_Is _ context_DeadlineExceeded);
        by injection Hm1 as <- <-.
    + apply Hset; [done|]. simpl in Hpc. by destruct ns.
    + simpl in Hpc. apply bool_decide_eq_false in Hif0.
      destruct ns; simpl in *; try done; by destruct Hif0.
    + simpl in Hpc. apply bool_decide_eq_false in Hif0.
      destruct ns; simpl in *; try done; by destruct Hif0.
  - unfold waiter_step in H.
    destruct (waiters w !! i) as [[a' pc]|] eqn:Hw; [|done]. simpl in H.
    destruct (instances w !! a') as [cw0|] eqn:Ha'; [|done].
    destruct pc; split_ifs H; injection H as <-; split; simpl; try done;
      by eapply Hkeep.
Qed.

(** No run from the empty world puts an object in the state [Finished]:
    the only assignment of it is in the else branch of
    [if newState != Running], which no monitor takes. *)
Lemma Finished_unreachable (sched : list label) (w : World) (a : nat)
    (cw : Context) :
  run empty_world sched = Some w → instances w !! a = Some cw →
  state cw ≠ Finished.
Proof.
  intros Hrun Ha.
  assert (Hnf : no_Finished w).
  { assert (Hgen : ∀ s w0, no_Finished w0 → run w0 s = Some w →
                           no_Finished w).
    { induction s as [|l s IH]; intros w0 H0 Hr.
      - by injection Hr as <-.
      - simpl in Hr. destruct (step w0 l) as [w1|] eqn:Hs; [|done].
        eapply IH; [|done]. by eapply Finished_unreachable_step. }
    eapply Hgen; [|done]. by split. }
  destruct Hnf as [Hi _]. rewrite Forall_lookup in Hi. by eapply Hi.
Qed.



(** The wake-up can be lost: the monitor writes [done] and broadcasts
    without holding the lock, so both can happen between the test of
    [done] in [CancelWithWait] and its entry on the notify list.  The call
    then waits although [done] is set, and no goroutine can move. *)
Lemma CancelWithWait_lost_wakeup :
  ∃ w cw,
    run empty_world scenario_lost_wakeup = Some w ∧
    instances w !! 0 = Some cw ∧ done cw = true ∧ crashed w = false ∧
    waiters w = [{| w_cw := 0; w_pc := WWaiting 0 |}] ∧
    (∀ m, step w (LMonitor m) = None) ∧
    (∀ i, step w (LWaiter i) = None).
Proof.
  eexists _, _. split; [vm_compute; reflexivity|].
  repeat (split; [reflexivity|]). split.
  - intros [|m]; reflexivity.
  - intros [|i]; reflexivity.
Qed.

(** ** The theorems at the scenarios *)






Lemma C9_Clone_CancelWithWait_witness :
  ∃ w1 w2 w3,
    step world_registered (LClone 0) = Some w1 ∧
    instances w1 !! 1 = Some (Clone instance_registered) ∧
    step w1 (LCancelWithWait 1) = Some w2 ∧
    step w2 (LWaiter 0) = Some w3 ∧
    crashed w3 = true.
Proof.
  exact (proj1 (proj2 (C9_Clone_CancelWithWait world_registered 0
                         instance_registered eq_refl eq_refl))).
Defined.



(** * Further properties *)

(** ** The dispatch of a generation *)

Lemma dispatch_ok_frame (e : error) (Lt snap : list callback)
    (cw cw' : Context) :
  dispatch_ok e Lt snap cw → onTimeout cw `prefix_of` onTimeout cw' →
  dispatch_ok e Lt snap cw'.
Proof.
  intros [Hd Hn] Hpre. split; [|done].
  intros Hc Hdl. destruct (Hd Hc Hdl) as [? ?]. split; [done|by etrans].
Qed.

Lemma classify_dispatch_ok (e : error) (Lt : list callback) (cw : Context) :
  Lt `prefix_of` onTimeout cw →
  dispatch_ok e Lt (snd (classify (Some e) cw)) cw.
Proof.
  intros HL. unfold classify; simpl. split.
  - intros -> ->. by simpl.
  - intros -> ->. by simpl.
Qed.

Lemma gen_snap_step (a m t i0 : nat) (base L Lt : list callback)
    (w w' : World) (l : label) :
  gen_inv a m t i0 base L w → gen_snap a m t base Lt w →
  step w l = Some w' → resets a l = false →
  gen_snap a m t base Lt w'.
Proof.
  intros (cw&pc&Ha&Htok&Hcan&Htlt&Hm&Hp&Hoth&_) (cw1&pc1&Ha1&Hm1&Hps) H Hr.
  rewrite Ha in Ha1. injection Ha1 as <-.
  rewrite Hm in Hm1. injection Hm1 as <-.
  destruct (step_tokens _ _ _ H) as [_ Htoks].
  destruct (decide (l = LMonitor m)) as [->|Hl].
  - assert (Halt : a < length (instances w)) by by eapply lookup_lt_Some.
    assert (Hmlt : m < length (monitors w)) by by eapply lookup_lt_Some.
    step_inv H. simpl in H. unfold monitor_step in H.
    rewrite Hm in H. simpl in H. rewrite Ha in H.
    destruct pc as [| |t'| | ns cbs| |[|f fs]| |]; simpl in Hp, Hps;
      split_ifs H; try (by destruct Hp); injection H as <-.
    + eexists _, _. simpl. rewrite !list_lookup_insert_eq by done.
      split; [done|]. split; [done|]. done.
    + eexists cw, _. simpl. rewrite list_lookup_insert_eq by done. done.
    + eexists cw, _. simpl. rewrite list_lookup_insert_eq by done. done.
    + destruct Hp as ([e He]&_).
      unfold Err in Hm0. rewrite Htok, He in Hm0.
      eexists cw, _. simpl. rewrite list_lookup_insert_eq by done.
      split; [done|]. split; [done|]. exists e. split; [done|].
      replace l with (snd (classify (Some e) cw)) by by rewrite Hm0.
      by apply classify_dispatch_ok.
    + destruct Hp as (e&He&_&Hi&_). destruct Hps as (e'&He'&Hd).
      eexists _, _. simpl. rewrite !list_lookup_insert_eq by done.
      split; [done|]. split; [done|]. exists e', cbs.
      split; [done|]. split; [|done].
      unfold invoked in *. simpl. by rewrite Hi.
    + destruct Hp as (e&_&_&_&->&_).
      apply bool_decide_eq_false in Hif0.
      destruct Hif0. apply final_state_not_Running.
    + destruct Hps as (e&snap&He&Hi&Hd).
      eexists _, _. simpl. rewrite !list_lookup_insert_eq by done.
      split; [done|]. split; [done|]. exists e, snap.
      rewrite app_nil_r in Hi. done.
    + destruct Hps as (e&snap&He&Hi&Hd).
      eexists cw, _. simpl. rewrite list_lookup_insert_eq by done.
      split; [done|]. split; [done|]. exists e, snap. split; [done|].
      split; [|done].
      rewrite (invoked_snoc w _ a a f) by done.
      rewrite decide_True by done. by rewrite <- app_assoc.
    + destruct Hps as (e&snap&He&Hi&Hd).
      eexists cw, _. simpl. rewrite list_lookup_insert_eq by done.
      split; [done|]. split; [done|]. by exists e, snap.
    + by eexists cw, _.
  - destruct (step_instance _ _ _ _ _ H Ha Hr) as (cw'&Ha'&Hc&Hsd).
    assert (invoked w' a = invoked w a) as Hinv.
    { destruct (step_invoked _ _ _ a H) as [?|(m'&f&fs&->&Hm'&_)]; [done|].
      exfalso. destruct (Hoth m' _ ltac:(congruence) Hm') as [?|?]; done. }
    destruct Hc as (_&_&_&_&_&Hto).
    exists cw', pc. split; [done|].
    split; [by eapply step_monitor_other|].
    destruct pc; simpl in *; rewrite ?Hinv; try done; try (by etrans).
    + destruct Hps as (e&He&Hd). exists e.
      split; [by apply Htoks|]. by eapply dispatch_ok_frame.
    + destruct Hps as (e&snap&He&Hi&Hd). exists e, snap.
      split; [by apply Htoks|]. split; [done|].
      by eapply dispatch_ok_frame.
    + destruct Hps as (e&snap&He&Hi&Hd). exists e, snap.
      split; [by apply Htoks|]. split; [done|].
      by eapply dispatch_ok_frame.
    + destruct Hps as (e&snap&He&Hi&Hd). exists e, snap.
      split; [by apply Htoks|]. split; [done|].
      by eapply dispatch_ok_frame.
Qed.

Lemma generation_step (a m t i0 : nat) (base : list callback)
    (w w' : World) (l : label) :
  generation a m t i0 base w → step w l = Some w' → resets a l = false →
  generation a m t i0 base w'.
Proof.
  intros (Hi&Hs&Hn) H Hr.
  assert (Hg := Hi). destruct Hg as (cw&_&Ha&_).
  split; [by eapply gen_inv_step|]. split.
  - by destruct (gen_state_step _ _ _ _ _ _ _ _ _ _ Hi Hs Ha H Hr).
  - by eapply gen_snap_step.
Qed.

Lemma generation_run (a m t i0 : nat) (base : list callback)
    (sched : list label) (w w' : World) :
  generation a m t i0 base w → run w sched = Some w' → no_Reset a sched →
  generation a m t i0 base w'.
Proof.
  revert w. induction sched as [|l sched IH]; intros w Hg Hrun Hno.
  - by injection Hrun as <-.
  - simpl in Hrun. destruct (step w l) as [w1|] eqn:Hstep; [|done].
    apply no_Reset_cons in Hno as [Hr Hno].
    eapply IH; [|done|done]. by eapply generation_step.
Qed.

Lemma new_Context_generation (w : World) (parent : Parent)
    (e : option error) :
  wf_world w →
  generation (length (instances w)) (length (monitors w))
             (length (tokens w)) (length (waiters w)) []
             (new_Context w parent e).
Proof.
  intros Hwf. split; [by apply new_Context_gen_inv|].
  split; [apply new_Context_gen_state|].
  eexists _, MStart. unfold new_Context; simpl.
  rewrite !list_lookup_middle by done. done.
Qed.

(** Both constructors start a generation. *)
Lemma constructor_generation (w w0 : World) (l0 : label) :
  wf_world w → is_constructor l0 = true → step w l0 = Some w0 →
  generation (length (instances w)) (length (monitors w))
             (length (tokens w)) (length (waiters w)) [] w0.
Proof.
  intros Hwf Hc H. step_inv H.
  destruct l0; try done; simpl in H; injection H as <-;
    by apply new_Context_generation.
Qed.

Lemma constructor_run (w w1 : World) (l0 : label) (sched : list label) :
  wf_world w → is_constructor l0 = true →
  run w (l0 :: sched) = Some w1 → no_Reset (length (instances w)) sched →
  generation (length (instances w)) (length (monitors w))
             (length (tokens w)) (length (waiters w)) [] w1.
Proof.
  intros Hwf Hc Hrun Hno. simpl in Hrun.
  destruct (step w l0) as [w0|] eqn:Hstep; [|done].
  eapply generation_run; [|done|done]. by eapply constructor_generation.
Qed.

(** When [done] is set, the state and what has been called are what the
    sentinel of the token gives. *)
Lemma generation_done (a m t i0 : nat) (base : list callback) (w : World)
    (cw : Context) :
  generation a m t i0 base w → instances w !! a = Some cw →
  done cw = true →
  ∃ e snap,
    Err w cw = Some e ∧ state cw = final_state e ∧
    invoked w a = base ++ snap ∧
    (error_is e context_Canceled = true → snap `prefix_of` onCancel cw) ∧
    (error_is e context_Canceled = false →
     error_is e context_DeadlineExceeded = true →
     snap `prefix_of` onTimeout cw) ∧
    (error_is e context_Canceled = false →
     error_is e context_DeadlineExceeded = false → snap = []).
Proof.
  intros ((cw0&pc&Ha&Htok&_&_&Hm&Hp&_)&_&(cw1&pc1&Ha1&Hm1&Hps)) Ha0 Hd.
  rewrite Ha in Ha0, Ha1. injection Ha0 as <-. injection Ha1 as <-.
  rewrite Hm in Hm1. injection Hm1 as <-.
  assert (Hpd := phase_done _ _ _ _ _ _ _ Hp Hd).
  assert (Hfin : ∃ e snap, token_Err (tokens w) t = Some e ∧
            state cw0 = final_state e ∧ invoked w a = base ++ snap ∧
            (error_is e context_Canceled = true →
             snap `prefix_of` onCancel cw0) ∧ dispatch_ok e [] snap cw0).
  { destruct Hpd as [-> | ->]; simpl in Hp, Hps;
      destruct Hp as (e&snap&He&_&Hs&Hi&Hc);
      destruct Hps as (e'&snap'&He'&Hi'&Hdo);
      rewrite He in He'; injection He' as <-;
      rewrite Hi in Hi'; apply app_inv_head in Hi' as <-;
      exists e, snap; (split; [done|]); (split; [done|]);
      (split; [done|]); (split; [intros Hx; by apply Hc|done]). }
  destruct Hfin as (e&snap&He&Hs&Hi&Hc&Hdl&Hn).
  exists e, snap. unfold Err. rewrite Htok.
  repeat split; try done.
  intros H1 H2. by apply Hdl.
Qed.

(** ** An error, once there, stays *)

Lemma Err_stable_step (w w' : World) (l : label) (a : nat) (cw : Context)
    (e : error) :
  instances w !! a = Some cw → Err w cw = Some e →
  step w l = Some w' → resets a l = false →
  ∃ cw', instances w' !! a = Some cw' ∧ Err w' cw' = Some e.
Proof.
  intros Ha He H Hr.
  destruct (step_instance _ _ _ _ _ H Ha Hr) as (cw'&Ha'&(Htok&_)&_).
  exists cw'. split; [done|]. unfold Err in *. rewrite Htok.
  by eapply step_tokens.
Qed.

Lemma gen_snap_unsettled (a m t : nat) (base Lt : list callback)
    (w : World) (cw : Context) :
  gen_snap a m t base Lt w → instances w !! a = Some cw →
  token_Err (tokens w) t = None →
  gen_snap a m t base (onTimeout cw) w.
Proof.
  intros (cw0&pc&Ha&Hm&Hp) Ha' Hnone.
  rewrite Ha in Ha'. injection Ha' as <-.
  exists cw0, pc. split; [done|]. split; [done|].
  destruct pc; simpl in *; try done.
  - destruct Hp as (e&He&_). congruence.
  - destruct Hp as (e&snap&He&_). congruence.
  - destruct Hp as (e&snap&He&_). congruence.
  - destruct Hp as (e&snap&He&_). congruence.
Qed.

Lemma gen_snap_run (a m t i0 : nat) (base L Lt : list callback)
    (sched : list label) (w w' : World) :
  gen_inv a m t i0 base L w → gen_snap a m t base Lt w →
  run w sched = Some w' → no_Reset a sched →
  gen_inv a m t i0 base L w' ∧ gen_snap a m t base Lt w'.
Proof.
  revert w. induction sched as [|l sched IH]; intros w Hi Hs Hrun Hno.
  - by injection Hrun as <-.
  - simpl in Hrun. destruct (step w l) as [w1|] eqn:Hstep; [|done].
    apply no_Reset_cons in Hno as [Hr Hno].
    eapply IH; [| |done|done].
    + by eapply gen_inv_step.
    + by eapply gen_snap_step.
Qed.



(** For an object made by [NewContextWithTimeout] and not reset, whose
    token has not settled before the deadline passes: once the monitor has
    set [done], [State()] is [Deadlined], [IsDone()] is true, and the
    callbacks called on the object are those registered with [OnTimeout]
    before the deadline, once each and in registration order, followed by
    those registered before the monitor took its snapshot. *)
Theorem timeout_Deadlined (w w1 w2 : World) (parent : Parent) (timeout : Z)
    (pre post : list label) (cw1 cw2 : Context) :
  wf_world w →
  run w (LNewContextWithTimeout parent timeout :: pre) = Some w1 →
  no_Reset (length (instances w)) pre →
  instances w1 !! length (instances w) = Some cw1 →
  Err w1 cw1 = None →
  run w1 (LSettle (tok (ctx cw1)) context_DeadlineExceeded :: post)
    = Some w2 →
  no_Reset (length (instances w)) post →
  instances w2 !! length (instances w) = Some cw2 → done cw2 = true →
  state cw2 = Deadlined ∧ IsDone cw2 = true ∧
  ∃ later,
    invoked w2 (length (instances w)) = onTimeout cw1 ++ later ∧
    onTimeout cw1 ++ later `prefix_of` onTimeout cw2.
Proof.
  intros Hwf Hrun1 Hno1 Ha1 Herr Hrun2 Hno2 Ha2 Hd.
  destruct (constructor_run w w1 (LNewContextWithTimeout parent timeout) pre
              Hwf eq_refl Hrun1 Hno1) as (Hi&_&Hs).
  assert (Hg := Hi).
  destruct Hg as (cw&pc&Ha&Htok&_&Htlt&_).
  rewrite Ha1 in Ha. injection Ha as <-.
  unfold Err in Herr. rewrite Htok in Herr.
  apply (gen_snap_unsettled _ _ _ _ _ _ _ Hs Ha1) in Herr as Hs1.
  simpl in Hrun2. rewrite Htok in Hrun2.
  destruct (step w1 (LSettle (length (tokens w)) context_DeadlineExceeded))
    as [w1'|] eqn:Hstep; [|done].
  assert (Htd : token_Err (tokens w1') (length (tokens w))
                = Some context_DeadlineExceeded).
  { step_inv Hstep. simpl in Hstep. injection Hstep as <-. simpl.
    by apply token_Err_settle_fresh. }
  assert (Hi1' := gen_inv_step _ _ _ _ _ _ _ _ _ Hi Hstep eq_refl).
  assert (Hs1' := gen_snap_step _ _ _ _ _ _ _ _ _ _ Hi Hs1 Hstep eq_refl).
  destruct (gen_snap_run _ _ _ _ _ _ _ _ _ _ Hi1' Hs1' Hrun2 Hno2)
    as [Hi2 Hs2].
  apply (run_tokens _ _ _ _ _ Hrun2) in Htd.
  destruct Hi2 as (cw2'&pc2&Ha2'&_&_&_&Hm2&Hp2&_).
  destruct Hs2 as (cw2''&pc2'&Ha2''&Hm2'&Hps2).
  rewrite Ha2 in Ha2', Ha2''. injection Ha2' as <-. injection Ha2'' as <-.
  rewrite Hm2 in Hm2'. injection Hm2' as <-.
  assert (Hpd := phase_done _ _ _ _ _ _ _ Hp2 Hd).
  assert (Hfin : ∃ snap, state cw2 = final_state context_DeadlineExceeded ∧
            invoked w2 (length (instances w)) = [] ++ snap ∧
            dispatch_ok context_DeadlineExceeded (onTimeout cw1) snap cw2).
  { destruct Hpd as [-> | ->]; simpl in Hp2, Hps2;
      destruct Hp2 as (e&snap&He&_&Hst&Hiv&_);
      destruct Hps2 as (e'&snap'&He'&Hiv'&Hdo);
      rewrite Htd in He, He'; injection He as <-; injection He' as <-;
      by exists snap'. }
  destruct Hfin as (snap&Hst&Hiv&[Hdl _]).
  destruct (Hdl eq_refl eq_refl) as [[later ->] Hsnap].
  split; [done|]. split; [unfold IsDone; by rewrite Hst|].
  by exists later.
Qed.

Lemma timeout_Deadlined_witness :
  state instance_deadlined = Deadlined ∧ IsDone instance_deadlined = true ∧
  ∃ later,
    invoked world_deadlined 0 = [5] ++ later ∧
    [5] ++ later `prefix_of` onTimeout instance_deadlined.
Proof.
  apply (timeout_Deadlined empty_world world_timeout world_deadlined
           Background 50 (take 5 (tail scenario_timeout))
           (drop 7 scenario_timeout) instance_registered
           instance_deadlined).
  - apply wf_world_empty.
  - reflexivity.
  - reflexivity.
  - reflexivity.
  - reflexivity.
  - reflexivity.
  - reflexivity.
  - reflexivity.
  - reflexivity.
Defined.

(** Within the generation of an object made by a constructor, a step
    leaves the state as it is, or takes it from [Created] to [Running], or
    from [Running] to what the monitor makes of the token's error.  A
    terminal state stays until [Reset]; and when the error is one of the
    two sentinels (or wraps one), the state does not go back. *)
Theorem generation_state_moves (w w1 w2 : World) (l0 : label)
    (pre : list label) (l : label) (cw1 : Context) :
  wf_world w → is_constructor l0 = true →
  run w (l0 :: pre) = Some w1 → no_Reset (length (instances w)) pre →
  instances w1 !! length (instances w) = Some cw1 →
  step w1 l = Some w2 → resets (length (instances w)) l = false →
  ∃ cw2,
    instances w2 !! length (instances w) = Some cw2 ∧
    state_move w2 (tok (ctx cw1)) (state cw1) (state cw2) ∧
    (terminal (state cw1) = true → state cw2 = state cw1) ∧
    ((∀ e, Err w2 cw2 = Some e →
           error_is e context_Canceled = true ∨
           error_is e context_DeadlineExceeded = true) →
     regresses (state cw1) (state cw2) = false).
Proof.
  intros Hwf Hc Hrun Hno Ha1 Hstep Hr.
  destruct (constructor_run _ _ _ _ Hwf Hc Hrun Hno) as (Hi&Hs&_).
  destruct (gen_state_step _ _ _ _ _ _ _ _ _ _ Hi Hs Ha1 Hstep Hr)
    as (_&cw2&Ha2&Hmv).
  assert (Hg := Hi). destruct Hg as (cw&pc&Ha&Htok&_).
  rewrite Ha1 in Ha. injection Ha as <-.
  destruct (step_instance _ _ _ _ _ Hstep Ha1 Hr) as (cw2'&Ha2'&(Htok2&_)&_).
  rewrite Ha2 in Ha2'. injection Ha2' as <-.
  exists cw2. rewrite Htok. repeat split; try done.
  - intros Ht. destruct Hmv as [->|[[Hx _]|(Hx&_)]]; [done| |];
      rewrite Hx in Ht; discriminate Ht.
  - intros Hcl. eapply state_move_forward; [done|].
    intros e He. apply Hcl. unfold Err. by rewrite Htok2, Htok.
Qed.

Lemma generation_state_moves_witness :
  ∃ cw2,
    instances (the_world (run empty_world (take 5 scenario_timeout))) !! 0
      = Some cw2 ∧
    state_move (the_world (run empty_world (take 5 scenario_timeout))) 0
               Created (state cw2) ∧
    (terminal Created = true → state cw2 = Created) ∧
    ((∀ e, Err (the_world (run empty_world (take 5 scenario_timeout))) cw2
           = Some e →
           error_is e context_Canceled = true ∨
           error_is e context_DeadlineExceeded = true) →
     regresses Created (state cw2) = false).
Proof.
  apply (generation_state_moves empty_world
           (the_world (run empty_world (take 4 scenario_timeout)))
           (the_world (run empty_world (take 5 scenario_timeout)))
           (LNewContextWithTimeout Background 50)
           (take 3 (tail scenario_timeout)) (LMonitor 0)
           {| ctx := {| tok := 0; values := [] |}; cancel := 0; mu := false;
              cond := Some 0; done := false; state := Created;
              onDone := [7]; onCancel := [3]; onTimeout := [5] |}).
  - apply wf_world_empty.
  - reflexivity.
  - reflexivity.
  - reflexivity.
  - reflexivity.
  - reflexivity.
  - reflexivity.
Defined.



Lemma Err_stable_run (sched : list label) (w w' : World) (a : nat)
    (cw : Context) (e : error) :
  instances w !! a = Some cw → Err w cw = Some e →
  run w sched = Some w' → no_Reset a sched →
  ∃ cw', instances w' !! a = Some cw' ∧ Err w' cw' = Some e.
Proof.
  revert w cw. induction sched as [|l sched IH]; intros w cw Ha He Hrun Hno.
  - injection Hrun as <-. by exists cw.
  - simpl in Hrun. destruct (step w l) as [w1|] eqn:Hstep; [|done].
    apply no_Reset_cons in Hno as [Hr Hno].
    destruct (Err_stable_step _ _ _ _ _ _ Ha He Hstep Hr) as (cw1&Ha1&He1).
    by eapply IH.
Qed.

(** Once [Err()] of an object is not nil it stays the same error as long
    as the object is not reset: the first cause wins, a later [Cancel], a
    later deadline or a later end of the parent changes nothing. *)
Theorem Err_stable (sched : list label) (w w' : World) (a : nat)
    (cw : Context) (e : error) :
  instances w !! a = Some cw → Err w cw = Some e →
  run w sched = Some w' → no_Reset a sched →
  ∃ cw', instances w' !! a = Some cw' ∧ Err w' cw' = Some e.
Proof. apply Err_stable_run. Qed.

Lemma Err_stable_witness :
  ∃ cw', instances
           (the_world (run world_deadlined
              [LCancel 0; LSettle 0 (ErrOther 1); LCancelWithWait 0;
               LWaiter 0])) !! 0 = Some cw' ∧
         Err (the_world (run world_deadlined
              [LCancel 0; LSettle 0 (ErrOther 1); LCancelWithWait 0;
               LWaiter 0])) cw' = Some context_DeadlineExceeded.
Proof.
  apply (Err_stable [LCancel 0; LSettle 0 (ErrOther 1); LCancelWithWait 0;
                     LWaiter 0] world_deadlined _ 0 instance_deadlined).
  - reflexivity.
  - reflexivity.
  - reflexivity.
  - reflexivity.
Defined.

(** ** Panics *)




(** ** Cancel *)

Lemma wf_tokens_step (w w' : World) (l : label) :
  wf_tokens w → step w l = Some w' → wf_tokens w'.
Proof.
  intros Hwf H.
  destruct (step_tokens _ _ _ H) as [Hlen _].
  assert (Hold : Forall (λ cw, cancel cw = tok (ctx cw) ∧
                               cancel cw < length (tokens w'))
                        (instances w)).
  { eapply Forall_impl; [exact Hwf|]. simpl. intros cw [? ?]. split; [done|lia]. }
  assert (Hlk : ∀ a cw, instances w !! a = Some cw →
            cancel cw = tok (ctx cw) ∧ cancel cw < length (tokens w')).
  { intros a cw Ha. rewrite Forall_lookup in Hold. by eapply Hold. }
  clear Hwf. step_inv H. unfold wf_tokens.
  assert (Hupd : ∀ a cw x, instances w !! a = Some cw →
            cancel x = cancel cw → tok (ctx x) = tok (ctx cw) →
            Forall (λ cw, cancel cw = tok (ctx cw) ∧
                          cancel cw < length (tokens w'))
                   (<[a := x]> (instances w))).
  { intros a cw x Ha Hc Ht. apply Forall_insert; [done|].
    rewrite Hc, Ht. by eapply Hlk. }
  destruct l; simpl in H; try on_inst H;
    try (injection H as <-; simpl in *; first [done | by eapply Hupd]).
  - injection H as <-. simpl in *. apply Forall_app. split; [done|].
    apply Forall_singleton. simpl. split; [done|]. rewrite length_app.
    simpl. lia.
  - injection H as <-. simpl in *. apply Forall_app. split; [done|].
    apply Forall_singleton. simpl. split; [done|]. rewrite length_app.
    simpl. lia.
  - injection H as <-. simpl in *. eapply Hupd; [done| |]; by destruct f.
  - injection H as <-. simpl in *. eapply Hupd; [done| |]; by destruct f.
  - injection H as <-. simpl in *. eapply Hupd; [done| |]; by destruct f.
  - destruct (mu cw0); [done|]. injection H as <-. simpl in *.
    apply Forall_insert; [done|]. simpl. split; [done|].
    rewrite length_app. simpl. lia.
  - injection H as <-. simpl in *. apply Forall_app. split; [done|].
    apply Forall_singleton. simpl. by eapply Hlk.
  - unfold monitor_step in H.
    destruct (monitors w !! m) as [[a' pc]|] eqn:Hm0; [|done]. simpl in H.
    destruct (instances w !! a') as [cw0|] eqn:Ha'; [|done].
    destruct pc as [| |t| | ns cbs| |[|f fs]| |]; split_ifs H;
      injection H as <-; simpl in *; first [done | by eapply Hupd].
  - unfold waiter_step in H.
    destruct (waiters w !! i) as [[a' pc]|] eqn:Hw; [|done]. simpl in H.
    destruct (instances w !! a') as [cw0|] eqn:Ha'; [|done].
    destruct pc; split_ifs H; injection H as <-; simpl in *;
      first [done | by eapply Hupd].
Qed.

Lemma reachable_wf_tokens (sched : list label) (w : World) :
  run empty_world sched = Some w → wf_tokens w.
Proof.
  assert (Hgen : ∀ s w0, wf_tokens w0 → run w0 s = Some w → wf_tokens w).
  { induction s as [|l s IH]; intros w0 H0 Hr.
    - by injection Hr as <-.
    - simpl in Hr. destruct (step w0 l) as [w1|] eqn:Hs; [|done].
      eapply IH; [|done]. by eapply wf_tokens_step. }
  apply Hgen. constructor.
Qed.

(** [Cancel] on an object of a reachable world: it changes no object and
    calls nothing; afterwards [Err()] is the error the token had settled
    with, or [context.Canceled] when it had not settled; every object that
    holds the same token (a clone, the original) sees the same error; and
    a second [Cancel] changes nothing at all. *)
Theorem Cancel_first_cause_wins (sched : list label) (w : World) (a : nat)
    (cw : Context) :
  run empty_world sched = Some w → crashed w = false →
  instances w !! a = Some cw →
  ∃ w',
    step w (LCancel a) = Some w' ∧
    instances w' = instances w ∧ log w' = log w ∧
    monitors w' = monitors w ∧
    Err w' cw = Some (default context_Canceled (Err w cw)) ∧
    (∀ cw2, tok (ctx cw2) = tok (ctx cw) → Err w' cw2 = Err w' cw) ∧
    step w' (LCancel a) = Some w'.
Proof.
  intros Hrun Hcr Ha.
  assert (Hwf := reachable_wf_tokens _ _ Hrun).
  unfold wf_tokens in Hwf. rewrite Forall_lookup in Hwf.
  destruct (Hwf _ _ Ha) as [Hc Hlt].
  eexists. split; [unfold step, on_instance; by rewrite Hcr, Ha|].
  simpl. repeat split.
  - unfold Err, cancel_token; simpl. rewrite Hc.
    destruct (token_Err (tokens w) (tok (ctx cw))) as [e|] eqn:He; simpl.
    + by apply token_Err_settle_other.
    + apply token_Err_settle_fresh; [lia|done].
  - intros cw2 Heq. unfold Err. by rewrite Heq.
  - unfold step, on_instance; simpl. rewrite Hcr, Ha. unfold Cancel; simpl.
    do 2 f_equal. unfold cancel_token, settle.
    destruct (tokens w !! cancel cw) as [[e|]|] eqn:Ht.
    + by rewrite Ht.
    + rewrite list_lookup_insert_eq by by eapply lookup_lt_Some. done.
    + by rewrite Ht.
Qed.

Lemma Cancel_first_cause_wins_witness :
  ∃ w',
    step world_registered (LCancel 0) = Some w' ∧
    instances w' = instances world_registered ∧
    log w' = log world_registered ∧
    monitors w' = monitors world_registered ∧
    Err w' instance_registered
      = Some (default context_Canceled
                (Err world_registered instance_registered)) ∧
    (∀ cw2, tok (ctx cw2) = tok (ctx instance_registered) →
            Err w' cw2 = Err w' instance_registered) ∧
    step w' (LCancel 0) = Some w'.
Proof.
  apply (Cancel_first_cause_wins scenario_registered world_registered 0
           instance_registered).
  - reflexivity.
  - reflexivity.
  - reflexivity.
Defined.

(** ** [CancelWithWait] returns *)

Lemma run_same_core (sched : list label) (w w' : World) (a : nat)
    (cw : Context) :
  instances w !! a = Some cw → run w sched = Some w' → no_Reset a sched →
  ∃ cw', instances w' !! a = Some cw' ∧ same_core cw cw'.
Proof.
  revert w cw. induction sched as [|l sched IH]; intros w cw Ha Hrun Hno.
  - injection Hrun as <-. exists cw. split; [done|apply same_core_refl].
  - simpl in Hrun. destruct (step w l) as [w1|] eqn:Hstep; [|done].
    apply no_Reset_cons in Hno as [Hr Hno].
    destruct (step_instance _ _ _ _ _ Hstep Ha Hr) as (cw1&Ha1&Hc1&_).
    destruct (IH _ _ Ha1 Hrun Hno) as (cw2&Ha2&Hc2).
    exists cw2. split; [done|]. by eapply same_core_trans.
Qed.

(** For an object made by a constructor and not reset, in a world where
    nothing has panicked and the lock is free, [CancelWithWait] can return:
    there is a schedule (the monitor runs to its end, then the call tests
    [done]) after which the call has returned, [done] is set, [Err()] is
    the error the token had settled with before the call, or
    [context.Canceled] when it had not settled, and [State()] is what the
    monitor makes of that error. *)
Theorem CancelWithWait_terminates (w w1 : World) (l0 : label)
    (pre : list label) (cw1 : Context) :
  wf_world w → is_constructor l0 = true →
  run w (l0 :: pre) = Some w1 → no_Reset (length (instances w)) pre →
  crashed w1 = false →
  instances w1 !! length (instances w) = Some cw1 → mu cw1 = false →
  ∃ sched w2 cw2,
    no_Reset (length (instances w)) sched ∧
    run w1 (LCancelWithWait (length (instances w)) :: sched) = Some w2 ∧
    waiters w2 !! length (waiters w1)
      = Some {| w_cw := length (instances w); w_pc := WReturned |} ∧
    instances w2 !! length (instances w) = Some cw2 ∧
    done cw2 = true ∧
    Err w2 cw2 = Some (default context_Canceled (Err w1 cw1)) ∧
    state cw2 = final_state (default context_Canceled (Err w1 cw1)).
Proof.
  intros Hwf Hc Hrun Hno Hcr Ha1 Hmu.
  assert (Hg := constructor_run _ _ _ _ Hwf Hc Hrun Hno).
  (* the condition variable set by the constructor is still there *)
  assert (Hcond : cond cw1 = Some (length (instances w))).
  { simpl in Hrun. destruct (step w l0) as [w0|] eqn:Hstep; [|done].
    assert (∃ cw0, instances w0 !! length (instances w) = Some cw0 ∧
                   cond cw0 = Some (length (instances w))) as (cw0&Ha0&Hc0).
    { step_inv Hstep. destruct l0; try done; simpl in Hstep;
        injection Hstep as <-; eexists; (split; [by apply list_lookup_middle|]);
        done. }
    destruct (run_same_core _ _ _ _ _ Ha0 Hrun Hno) as (cw1'&Ha1'&(_&_&Hcc&_)).
    rewrite Ha1 in Ha1'. injection Ha1' as <-. congruence. }
  destruct Hg as (Hi&Hs&Hn).
  destruct (CancelWithWait_can_return _ _ _ _ _ _ _ _ _ Hi Hcr Ha1 Hmu Hcond)
    as (sched&w2&Hno2&Hrun2&Hw).
  exists sched, w2.
  (* the invariants at the end *)
  assert (Hrun2' := Hrun2). simpl in Hrun2'.
  destruct (step w1 (LCancelWithWait (length (instances w))))
    as [w1'|] eqn:Hstep; [|done].
  assert (Hg1' : generation (length (instances w)) (length (monitors w))
                   (length (tokens w)) (length (waiters w)) [] w1').
  { by eapply (generation_step _ _ _ _ _ w1 w1' _ (conj Hi (conj Hs Hn))). }
  assert (Hg2 := generation_run _ _ _ _ _ _ _ _ Hg1' Hrun2' Hno2).
  assert (Hgi := Hi). destruct Hgi as (cw&pc&Ha&Htok&Hcan&Htlt&_&_&_&Hi0&_).
  rewrite Ha1 in Ha. injection Ha as <-.
  assert (Hq : quiescent w2 (length (instances w))).
  { destruct Hg2 as (Hi2&_). eapply returned_quiescent; [done| |done]. lia. }
  destruct Hq as [(cw2&Ha2&Hd2) _].
  exists cw2. do 5 (split; [done|]).
  (* the error *)
  assert (He1 : Err w1' cw1 = Some (default context_Canceled (Err w1 cw1))).
  { step_inv Hstep. simpl in Hstep. unfold on_instance in Hstep.
    rewrite Ha1 in Hstep. injection Hstep as <-.
    unfold Err, cancel_token; simpl. rewrite Hcan, Htok.
    destruct (token_Err (tokens w1) (length (tokens w))) as [e|] eqn:He;
      simpl.
    - by apply token_Err_settle_other.
    - by apply token_Err_settle_fresh. }
  assert (Ha1' : instances w1' !! length (instances w) = Some cw1).
  { step_inv Hstep. simpl in Hstep. unfold on_instance in Hstep.
    rewrite Ha1 in Hstep. by injection Hstep as <-. }
  destruct (Err_stable_run _ _ _ _ _ _ Ha1' He1 Hrun2' Hno2) as (cw2'&Ha2'&He2).
  rewrite Ha2 in Ha2'. injection Ha2' as <-.
  split; [done|].
  destruct (generation_done _ _ _ _ _ _ _ Hg2 Ha2 Hd2) as (e&snap&He&Hst&_).
  rewrite He2 in He. injection He as <-. done.
Qed.

Lemma CancelWithWait_terminates_witness :
  ∃ sched w2 cw2,
    no_Reset 0 sched ∧
    run world_registered (LCancelWithWait 0 :: sched) = Some w2 ∧
    waiters w2 !! 0 = Some {| w_cw := 0; w_pc := WReturned |} ∧
    instances w2 !! 0 = Some cw2 ∧
    done cw2 = true ∧
    Err w2 cw2 = Some context_Canceled ∧
    state cw2 = Canceled.
Proof.
  apply (CancelWithWait_terminates empty_world world_registered
           (LNewContextWithCancel Background) (tail scenario_registered)
           instance_registered).
  - apply wf_world_empty.
  - reflexivity.
  - reflexivity.
  - reflexivity.
  - reflexivity.
  - reflexivity.
  - reflexivity.
Defined.

(** ** Clones, values and derivations *)



(** [Reset(parent)] derives the new token from [parent] alone: the object
    forgets the values associated with [WithValue] and the error of the
    old token; its [Value]s are those of the parent, its [Err()] is the
    error of the parent at that moment, its trigger is that of the new
    token, and a [Cancel] that follows settles the new token only. *)
Theorem Reset_derives_from_parent (sched : list label) (w : World) (a : nat)
    (cw : Context) (parent : Parent) :
  run empty_world sched = Some w → crashed w = false →
  instances w !! a = Some cw → mu cw = false →
  ∃ w1 cw1 w2,
    step w (LReset a parent) = Some w1 ∧
    instances w1 !! a = Some cw1 ∧
    (∀ key, Value cw1 key = chain_Value (p_values parent) key) ∧
    Err w1 cw1 = p_err parent ∧
    cancel cw1 = tok (ctx cw1) ∧ tok (ctx cw1) ≠ tok (ctx cw) ∧
    step w1 (LCancel a) = Some w2 ∧
    Err w2 cw1 = Some (default context_Canceled (p_err parent)) ∧
    Err w2 cw = Err w cw.
Proof.
  intros Hrun Hcr Ha Hmu.
  assert (Hwf := reachable_wf_tokens _ _ Hrun).
  unfold wf_tokens in Hwf. rewrite Forall_lookup in Hwf.
  destruct (Hwf _ _ Ha) as [Hc Hlt].
  assert (Halt : a < length (instances w)) by by eapply lookup_lt_Some.
  eexists (Reset w a cw parent), _, _.
  split; [unfold step; by rewrite Hcr, Ha, Hmu|].
  split; [unfold Reset; simpl; by apply list_lookup_insert_eq|].
  split; [done|].
  split; [unfold Err, token_Err; simpl; by rewrite list_lookup_middle|].
  split; [done|]. split; [simpl; lia|].
  split.
  { unfold step, on_instance. simpl. rewrite Hcr.
    by rewrite list_lookup_insert_eq. }
  unfold Err, Cancel, cancel_token, settle; simpl.
  unfold derive_WithCancel.
  rewrite list_lookup_middle by done.
  destruct (p_err parent) as [e|] eqn:Hp; simpl.
  - split; [unfold token_Err; by rewrite list_lookup_middle|].
    apply token_Err_app. lia.
  - split.
    + unfold token_Err. rewrite list_lookup_insert_eq; [done|].
      rewrite length_app. simpl. lia.
    + unfold token_Err. rewrite list_lookup_insert_ne by lia.
      rewrite lookup_app_l by lia. done.
Qed.

Lemma Reset_derives_from_parent_witness :
  ∃ w1 cw1 w2,
    step world_canceled (LReset 0 expired_parent) = Some w1 ∧
    instances w1 !! 0 = Some cw1 ∧
    (∀ key, Value cw1 key = chain_Value (p_values expired_parent) key) ∧
    Err w1 cw1 = p_err expired_parent ∧
    cancel cw1 = tok (ctx cw1) ∧
    tok (ctx cw1) ≠ tok (ctx instance_canceled) ∧
    step w1 (LCancel 0) = Some w2 ∧
    Err w2 cw1 = Some (default context_Canceled (p_err expired_parent)) ∧
    Err w2 instance_canceled = Err world_canceled instance_canceled.
Proof.
  apply (Reset_derives_from_parent
           (scenario_registered ++ LCancelWithWait 0 :: scenario_wait)
           world_canceled 0 instance_canceled expired_parent).
  - reflexivity.
  - reflexivity.
  - reflexivity.
  - reflexivity.
Defined.

(** An object derived with [NewContextWithCancel] from [GetContext()] of
    an object whose monitor has set [done]: once its own monitor has set
    [done], its [Err()] and its [State()] are those of the object it was
    derived from. *)
Theorem derived_from_GetContext (w w1 w2 : World) (l0 : label)
    (pre post : list label) (cw1 child : Context) :
  wf_world w → is_constructor l0 = true →
  run w (l0 :: pre) = Some w1 → no_Reset (length (instances w)) pre →
  instances w1 !! length (instances w) = Some cw1 → done cw1 = true →
  run w1 (LNewContextWithCancel (GetContext w1 cw1) :: post) = Some w2 →
  no_Reset (length (instances w1)) post →
  instances w2 !! length (instances w1) = Some child → done child = true →
  state child = state cw1 ∧ Err w2 child = Err w1 cw1.
Proof.
  intros Hwf Hc Hrun1 Hno1 Ha1 Hd1 Hrun2 Hno2 Ha2 Hd2.
  destruct (generation_done _ _ _ _ _ _ _
              (constructor_run _ _ _ _ Hwf Hc Hrun1 Hno1) Ha1 Hd1)
    as (e&snap&He&Hs&_).
  assert (Hwf1 : wf_world w1) by by eapply wf_world_run.
  destruct (generation_done _ _ _ _ _ _ _
              (constructor_run w1 w2
                 (LNewContextWithCancel (GetContext w1 cw1)) post
                 Hwf1 eq_refl Hrun2 Hno2) Ha2 Hd2)
    as (e2&snap2&He2&Hs2&_).
  (* the child starts with the error of the object *)
  simpl in Hrun2.
  destruct (step w1 (LNewContextWithCancel (GetContext w1 cw1)))
    as [w1'|] eqn:Hstep; [|done].
  assert (∃ ch0, instances w1' !! length (instances w1) = Some ch0 ∧
                 Err w1' ch0 = Some e) as (ch0&Hch0&Hech0).
  { step_inv Hstep. simpl in Hstep. injection Hstep as <-.
    eexists. split; [simpl; by apply list_lookup_middle|].
    unfold Err, token_Err; simpl. rewrite list_lookup_middle by done.
    done. }
  destruct (Err_stable_run _ _ _ _ _ _ Hch0 Hech0 Hrun2 Hno2) as (ch&Hch&Hech).
  rewrite Ha2 in Hch. injection Hch as <-.
  rewrite Hech in He2. injection He2 as <-.
  split; congruence.
Qed.

Lemma derived_from_GetContext_witness :
  state instance_child = state instance_canceled ∧
  Err world_child instance_child = Err world_canceled instance_canceled.
Proof.
  apply (derived_from_GetContext empty_world world_canceled world_child
           (LNewContextWithCancel Background)
           (tail scenario_registered ++ LCancelWithWait 0 :: scenario_wait)
           [LMonitor 1; LMonitor 1; LMonitor 1; LMonitor 1; LMonitor 1;
            LMonitor 1; LMonitor 1]
           instance_canceled instance_child).
  - apply wf_world_empty.
  - reflexivity.
  - reflexivity.
  - reflexivity.
  - reflexivity.
  - reflexivity.
  - reflexivity.
  - reflexivity.
  - reflexivity.
  - reflexivity.
Defined.

(** ** The two monitors compared *)

(** The monitor of main.go compares the error with [==], that of
    context.go uses [errors.Is] and the zero value: run on the same error,
    they end in the same state exactly when the error is one of the two
    sentinels themselves; on an error that wraps a sentinel and on any
    other error the draft ends in [Finished], context.go in the state of
    the wrapped sentinel or in [Created].  And what context.go calls is
    what the draft calls before it goes on to [onDone]. *)
Theorem monitors_compared (cw : Context) (e : error) :
  let draft := {| Draft.state := Running; Draft.onDone := onDone cw;
                  Draft.onCancel := onCancel cw;
                  Draft.onTimeout := onTimeout cw |} in
  (fst (Draft.startMonitoring draft (Some e)) = final_state e ↔
   e = context_Canceled ∨ e = context_DeadlineExceeded) ∧
  (e ≠ context_Canceled → e ≠ context_DeadlineExceeded →
   fst (Draft.startMonitoring draft (Some e)) = Finished ∧
   snd (Draft.startMonitoring draft (Some e)) = onDone cw) ∧
  (e = context_Canceled ∨ e = context_DeadlineExceeded →
   snd (Draft.startMonitoring draft (Some e))
     = snd (classify (Some e) cw) ++ onDone cw).
Proof.
  simpl. split; [|split].
  - split.
    + intros H. destruct e; simpl in H; auto; exfalso;
        symmetry in H; by apply final_state_not_Finished in H.
    + by intros [-> | ->].
  - intros H1 H2. by destruct e.
  - by intros [-> | ->].
Qed.

Lemma monitors_compared_witness :
  fst (Draft.startMonitoring
         {| Draft.state := Running; Draft.onDone := [7];
            Draft.onCancel := [3]; Draft.onTimeout := [5] |}
         (Some (ErrWrap 0 context_Canceled))) = Finished ∧
  snd (Draft.startMonitoring
         {| Draft.state := Running; Draft.onDone := [7];
            Draft.onCancel := [3]; Draft.onTimeout := [5] |}
         (Some (ErrWrap 0 context_Canceled))) = [7].
Proof.
  apply (proj1 (proj2 (monitors_compared instance_registered
                         (ErrWrap 0 context_Canceled)))); discriminate.
Defined.

(** ** No run reaches [Finished] *)

Lemma Finished_unreachable_witness : state instance_deadlined ≠ Finished.
Proof.
  apply (Finished_unreachable scenario_timeout world_deadlined 0
           instance_deadlined).
  - reflexivity.
  - reflexivity.
Defined.

(** ** Where a monitor takes its callbacks from *)

Lemma step_pending_source (w w' : World) (l : label) (m : nat)
    (mon' : Monitor) (g : callback) :
  step w l = Some w' → monitors w' !! m = Some mon' →
  g ∈ pending (m_pc mon') →
  ∃ mon, monitors w !! m = Some mon ∧ m_cw mon = m_cw mon' ∧
    (g ∈ pending (m_pc mon) ∨
     (m_pc mon = MClassify ∧
      ∃ cw, instances w !! m_cw mon = Some cw ∧
            (g ∈ onCancel cw ∨ g ∈ onTimeout cw)) ∨
     (m_pc mon = MRangeOnDone ∧
      ∃ cw, instances w !! m_cw mon = Some cw ∧ g ∈ onDone cw)).
Proof.
  intros H Hm Hg. step_inv H.
  assert (Hnil : g ∈ @nil callback → False) by by intros ?%elem_of_nil.
  destruct l; simpl in H; try on_inst H;
    try (injection H as <-; simpl in Hm; exists mon'; by auto).
  - injection H as <-. simpl in Hm.
    apply lookup_snoc_Some in Hm as [[_ Hm]|[_ <-]];
      [exists mon'; by auto|by destruct Hnil].
  - injection H as <-. simpl in Hm.
    apply lookup_snoc_Some in Hm as [[_ Hm]|[_ <-]];
      [exists mon'; by auto|by destruct Hnil].
  - destruct (mu cw0); [done|]. injection H as <-. simpl in Hm.
    apply lookup_snoc_Some in Hm as [[_ Hm]|[_ <-]];
      [exists mon'; by auto|by destruct Hnil].
  - unfold monitor_step in H.
    destruct (monitors w !! m0) as [[a' pc]|] eqn:Hm0; [|done]. simpl in H.
    destruct (instances w !! a') as [cw0|] eqn:Ha'; [|done].
    destruct pc as [| |t| | ns cbs| |[|f fs]| |]; split_ifs H;
      injection H as <-; simpl in Hm; try (exists mon'; by auto).
    all: apply list_lookup_insert_Some in Hm as [(<-&<-&_)|[_ Hm]].
    all: try (exists mon'; by auto).
    all: simpl in Hg; try (by destruct Hnil).
    all: eexists; split; [done|]; split; [done|]; simpl.
    + right; left. split; [done|]. exists cw0. split; [done|].
      unfold classify in Hm1.
      destruct (errors_Is _ context_Canceled);
        [injection Hm1 as <- <-; by auto|].
      destruct (errors_Is _ context_DeadlineExceeded);
        injection Hm1 as <- <-; [by auto|by destruct Hnil].
    + by left.
    + right; right. split; [done|]. by exists cw0.
    + left. by right.
  - unfold waiter_step in H.
    destruct (waiters w !! i) as [[a' pc]|] eqn:Hw; [|done]. simpl in H.
    destruct (instances w !! a') as [cw0|] eqn:Ha'; [|done].
    destruct pc; split_ifs H; injection H as <-; exists mon'; by auto.
Qed.

(** A callback gets into [onCancel] or [onTimeout] by [OnCancel], by
    [OnTimeout] or by [Clone]. *)
Lemma step_specific (w w' : World) (l : label) (a : nat) (cw' : Context)
    (g : callback) :
  step w l = Some w' → instances w' !! a = Some cw' →
  g ∈ onCancel cw' ∨ g ∈ onTimeout cw' →
  (∃ a0 cw0, instances w !! a0 = Some cw0 ∧
             (g ∈ onCancel cw0 ∨ g ∈ onTimeout cw0)) ∨
  registers_specific g l = true.
Proof.
  intros H Ha Hg. step_inv H.
  assert (Hnil : g ∈ @nil callback → False) by by intros ?%elem_of_nil.
  assert (Hupd : ∀ a0 cw0 x, instances w !! a0 = Some cw0 →
    instances w' = <[a0 := x]> (instances w) →
    onCancel x = onCancel cw0 → onTimeout x = onTimeout cw0 →
    (∃ a0 cw0, instances w !! a0 = Some cw0 ∧
               (g ∈ onCancel cw0 ∨ g ∈ onTimeout cw0)) ∨
    registers_specific g l = true).
  { intros a0 cw0 x Ha0 Heq Hc Ht. rewrite Heq in Ha.
    apply list_lookup_insert_Some in Ha as [(<-&<-&_)|[_ Ha]].
    - left. exists a0, cw0. split; [done|]. by rewrite <- Hc, <- Ht.
    - left. by exists a, cw'. }
  destruct l; simpl in H; try on_inst H;
    try (injection H as <-; simpl in Ha; left; by eexists _, _).
  - injection H as <-. simpl in Ha.
    apply lookup_snoc_Some in Ha as [[_ Ha]|[_ <-]];
      [left; by eexists _, _|]. simpl in Hg. by destruct Hg, Hnil.
  - injection H as <-. simpl in Ha.
    apply lookup_snoc_Some in Ha as [[_ Ha]|[_ <-]];
      [left; by eexists _, _|]. simpl in Hg. by destruct Hg, Hnil.
  - injection H as <-. eapply (Hupd _ _ _ Hinst); [done| |]; by destruct f.
  - injection H as <-. simpl in Ha.
    apply list_lookup_insert_Some in Ha as [(<-&<-&_)|[_ Ha]];
      [|left; by eexists _, _].
    destruct f as [f|]; [|left; by eexists _, _]. simpl in *.
    rewrite elem_of_app, list_elem_of_singleton in Hg.
    destruct Hg as [[Hg| ->]|Hg].
    + left. eexists _, _. split; [done|]. by left.
    + right. by apply bool_decide_eq_true.
    + left. eexists _, _. split; [done|]. by right.
  - injection H as <-. simpl in Ha.
    apply list_lookup_insert_Some in Ha as [(<-&<-&_)|[_ Ha]];
      [|left; by eexists _, _].
    destruct f as [f|]; [|left; by eexists _, _]. simpl in *.
    rewrite elem_of_app, list_elem_of_singleton in Hg.
    destruct Hg as [Hg|[Hg| ->]].
    + left. eexists _, _. split; [done|]. by left.
    + left. eexists _, _. split; [done|]. by right.
    + right. by apply bool_decide_eq_true.
  - injection H as <-. by eapply (Hupd _ _ _ Hinst).
  - destruct (mu cw0); [done|]. injection H as <-. simpl in Ha.
    apply list_lookup_insert_Some in Ha as [(<-&<-&_)|[Hne Ha]];
      [simpl in Hg; by destruct Hg, Hnil|].
    left. by eexists _, _.
  - injection H as <-. simpl in Ha.
    apply lookup_snoc_Some in Ha as [[_ Ha]|[-> <-]];
      left; by eexists _, _.
  - unfold monitor_step in H.
    destruct (monitors w !! m) as [[a' pc]|] eqn:Hm0; [|done]. simpl in H.
    destruct (instances w !! a') as [cw0|] eqn:Ha'; [|done].
    destruct pc as [| |t| | ns cbs| |[|f fs]| |]; split_ifs H;
      injection H as <-; simpl in Ha; try (left; by eexists _, _);
      by eapply (Hupd _ _ _ Ha').
  - unfold waiter_step in H.
    destruct (waiters w !! i) as [[a' pc]|] eqn:Hw; [|done]. simpl in H.
    destruct (instances w !! a') as [cw0|] eqn:Ha'; [|done].
    destruct pc; split_ifs H; injection H as <-; simpl in Ha;
      try (left; by eexists _, _); by eapply (Hupd _ _ _ Ha').
Qed.

(** ** [onDone] is dead *)

Lemma never_specific_step (g : callback) (w w' : World) (l : label) :
  no_Finished w → never_specific g w → step w l = Some w' →
  registers_specific g l = false → never_specific g w'.
Proof.
  intros [_ Hnf] (Hlog&Hpend&Hreg) H Hl.
  split; [|split].
  - destruct (step_log _ _ _ H) as [->|(m&a&f&fs&->&Hm&->)]; [done|].
    rewrite map_app, elem_of_app. intros [?|Hin]; [done|].
    simpl in Hin. apply list_elem_of_singleton in Hin as ->.
    apply (Hpend _ _ Hm). simpl. left.
  - intros m mon' Hm Hg.
    destruct (step_pending_source _ _ _ _ _ _ H Hm Hg)
      as (mon&Hold&Heq&[Hp|[(Hpc&cw&Ha&Hr)|(Hpc&_)]]).
    + by apply (Hpend _ _ Hold).
    + destruct (Hreg _ _ Ha) as [? ?]. by destruct Hr.
    + rewrite Forall_lookup in Hnf. apply Hnf in Hold.
      by rewrite Hpc in Hold.
  - intros a cw' Ha.
    assert (Hno : ¬ (g ∈ onCancel cw' ∨ g ∈ onTimeout cw')).
    { intros Hg.
      destruct (step_specific _ _ _ _ _ _ H Ha Hg)
        as [(a0&cw0&Ha0&Hg0)|Hr]; [|congruence].
      destruct (Hreg _ _ Ha0) as [? ?]. by destruct Hg0. }
    split; intros ?; apply Hno; auto.
Qed.

(** In context.go a callback that is registered with [OnDone] only (with
    neither [OnCancel] nor [OnTimeout], on any object) is never called,
    in any run: the one loop over [onDone] is in the branch the monitor
    never takes. *)
Theorem OnDone_never_called (sched : list label) (w : World) (g : callback) :
  run empty_world sched = Some w → only_OnDone g sched →
  g ∉ map snd (log w).
Proof.
  intros Hrun Hon.
  assert (Hgen : ∀ s w0, no_Finished w0 → never_specific g w0 →
            only_OnDone g s → run w0 s = Some w → never_specific g w).
  { induction s as [|l s IH]; intros w0 Hnf Hns Ho Hr.
    - by injection Hr as <-.
    - simpl in Hr. destruct (step w0 l) as [w1|] eqn:Hs; [|done].
      unfold only_OnDone in Ho. simpl in Ho.
      apply andb_true_iff in Ho as [Hl Ho]. apply negb_true_iff in Hl.
      eapply (IH w1); [| |done|done].
      + by eapply Finished_unreachable_step.
      + by eapply never_specific_step. }
  assert (Hns : never_specific g w).
  { eapply (Hgen sched empty_world); [by split| |done|done].
    split; [by intros ?%elem_of_nil|]. split; [done|done]. }
  by destruct Hns.
Qed.

Lemma OnDone_never_called_witness : 7 ∉ map snd (log world_canceled).
Proof.
  apply (OnDone_never_called
           (scenario_registered ++ LCancelWithWait 0 :: scenario_wait)
           world_canceled 7).
  - reflexivity.
  - reflexivity.
Defined.

(** ** Registration after the monitor has taken its snapshot *)

Lemma step_monitor_will_read (w w' : World) (l : label) (m : nat)
    (mon' : Monitor) :
  step w l = Some w' → monitors w' !! m = Some mon' →
  monitors w !! m = Some mon' ∨
  (∃ pc, monitors w !! m = Some {| m_cw := m_cw mon'; m_pc := pc |} ∧
         (will_read pc = false → will_read (m_pc mon') = false)) ∨
  (monitors w !! m = None ∧
   (resets (m_cw mon') l = true ∨
    (is_constructor l = true ∧ m_cw mon' = length (instances w)))).
Proof.
  intros H Hm. step_inv H.
  assert (Happ : ∀ a, monitors w' = monitors w ++ [{| m_cw := a; m_pc := MStart |}] →
     resets a l = true ∨ (is_constructor l = true ∧ a = length (instances w)) →
     monitors w !! m = Some mon' ∨
     (∃ pc, monitors w !! m = Some {| m_cw := m_cw mon'; m_pc := pc |} ∧
            (will_read pc = false → will_read (m_pc mon') = false)) ∨
     (monitors w !! m = None ∧
      (resets (m_cw mon') l = true ∨
       (is_constructor l = true ∧ m_cw mon' = length (instances w))))).
  { intros a Heq Hor. rewrite Heq in Hm.
    apply lookup_snoc_Some in Hm as [[_ Hm]|[-> <-]]; [by left|].
    right; right. split; [by apply lookup_ge_None_2|done]. }
  destruct l; simpl in H; try on_inst H;
    try (injection H as <-; simpl in *; first [by left | by eapply Happ; eauto]).
  - destruct (mu cw0); [done|]. injection H as <-. simpl in *.
    eapply Happ; [done|]. left. by apply bool_decide_eq_true.
  - unfold monitor_step in H.
    destruct (monitors w !! m0) as [[a' pc]|] eqn:Hm0; [|done]. simpl in H.
    destruct (instances w !! a') as [cw0|] eqn:Ha'; [|done].
    destruct pc as [| |t| | ns cbs| |[|f fs]| |]; split_ifs H;
      injection H as <-; simpl in Hm; try (by left).
    all: apply list_lookup_insert_Some in Hm as [(<-&<-&_)|[_ Hm]];
      [|by left];
      right; left; eexists; split; [done|]; simpl; try done.
    all: apply bool_decide_eq_false in Hif0; destruct ns; try done;
      by destruct Hif0.
  - unfold waiter_step in H.
    destruct (waiters w !! i) as [[a' pc]|] eqn:Hw; [|done]. simpl in H.
    destruct (instances w !! a') as [cw0|] eqn:Ha'; [|done].
    destruct pc; split_ifs H; injection H as <-; by left.
Qed.

Lemma registers_any_of (g : callback) (a : nat) (l : label) :
  registers g a l = true → registers_any g l = true.
Proof.
  destruct l as [| |a' [f|]|a' [f|]|a' [f|]| | | | | | | |]; simpl; try done.
  all: rewrite andb_true_iff; by intros [-> _].
Qed.

Lemma too_late_step (g : callback) (w w' : World) (l : label) :
  too_late g w → step w l = Some w' → registers_any g l = false →
  too_late g w'.
Proof.
  intros (Hwf&Hlog&Hpend&Hreg) H Hl.
  split; [by eapply wf_world_step|]. split; [|split].
  - destruct (step_log _ _ _ H) as [->|(m&a&f&fs&->&Hm&->)]; [done|].
    rewrite map_app, elem_of_app. intros [?|Hin]; [done|].
    simpl in Hin. apply list_elem_of_singleton in Hin as ->.
    apply (Hpend _ _ Hm). simpl. left.
  - intros m mon' Hm Hg.
    destruct (step_pending_source _ _ _ _ _ _ H Hm Hg)
      as (mon&Hold&Heq&[Hp|[(Hpc&cw&Ha&Hr)|(Hpc&cw&Ha&Hr)]]).
    + by apply (Hpend _ _ Hold).
    + assert (Hin : g ∈ registered cw).
      { unfold registered. rewrite !elem_of_app. destruct Hr; auto. }
      specialize (Hreg _ _ Ha Hin _ _ Hold eq_refl).
      by rewrite Hpc in Hreg.
    + assert (Hin : g ∈ registered cw).
      { unfold registered. rewrite !elem_of_app. auto. }
      specialize (Hreg _ _ Ha Hin _ _ Hold eq_refl).
      by rewrite Hpc in Hreg.
  - intros a cw' Ha Hg m mon' Hm Hcw.
    destruct (step_registered _ _ _ _ _ _ H Ha Hg)
      as [(cw&Hold&Hr&Hres)|[Hhere|(a0&cw0&->&->&_)]].
    + destruct (step_monitor_will_read _ _ _ _ _ H Hm)
        as [Hsame|[(pc&Hmold&Himp)|(_&[Hres'|[_ Heq]])]].
      * by eapply Hreg.
      * apply Himp. rewrite Hcw in Hmold.
        by apply (Hreg _ _ Hold Hr _ _ Hmold).
      * congruence.
      * apply lookup_lt_Some in Hold. lia.
    + apply registers_any_of in Hhere. congruence.
    + destruct (step_attach _ _ _ _ _ H Hm)
        as [(mon&Hmold&Heq)|[[Hres' _]|[Hcons _]]]; try done.
      destruct Hwf as [Hmon _]. rewrite Forall_lookup in Hmon.
      apply Hmon in Hmold. lia.
Qed.

Lemma too_late_run (g : callback) (sched : list label) (w w' : World) :
  too_late g w → run w sched = Some w' → never_registers g sched →
  too_late g w'.
Proof.
  revert w. induction sched as [|l sched IH]; intros w Hinv Hrun Hon.
  - by injection Hrun as <-.
  - simpl in Hrun. destruct (step w l) as [w1|] eqn:Hstep; [|done].
    unfold never_registers in Hon. simpl in Hon.
    apply andb_true_iff in Hon as [Hl Hon]. apply negb_true_iff in Hl.
    eapply IH; [|done|done]. by eapply too_late_step.
Qed.

Lemma generation_IsDone_read (a m t i0 : nat) (base : list callback)
    (w : World) (cw : Context) :
  generation a m t i0 base w → instances w !! a = Some cw →
  IsDone cw = true →
  ∀ m' mon, monitors w !! m' = Some mon → m_cw mon = a →
            will_read (m_pc mon) = false.
Proof.
  intros ((cw0&pc&Ha&_&_&_&Hm&Hp&Hoth&_)&(cw1&pc1&Ha1&Hm1&Hps)&_) Ha0 Hd
    m' mon Hm' Hcw.
  rewrite Ha in Ha0, Ha1. injection Ha0 as <-. injection Ha1 as <-.
  rewrite Hm in Hm1. injection Hm1 as <-.
  unfold IsDone in Hd. apply andb_true_iff in Hd as [Hd1 Hd2].
  apply bool_decide_eq_true in Hd1, Hd2.
  destruct (decide (m' = m)) as [->|Hne].
  - rewrite Hm in Hm'. injection Hm' as <-. simpl.
    destruct pc; simpl in Hp, Hps; try done.
  - destruct (Hoth _ _ Hne Hm' Hcw) as [-> | ->]; done.
Qed.

(** A callback registered once the object is in a terminal state comes too
    late: for an object made by a constructor and not reset, with
    [IsDone()] true, a new callback registered on it with [OnDone],
    [OnCancel] or [OnTimeout] is never called, whatever happens next
    ([Reset] of the object included), as long as it is not registered
    again. *)
Theorem late_registration_never_called (s0 pre sched : list label)
    (w0 w w' : World) (l0 l : label) (cw : Context) (g : callback) :
  run empty_world s0 = Some w0 → is_constructor l0 = true →
  run w0 (l0 :: pre) = Some w → no_Reset (length (instances w0)) pre →
  instances w !! length (instances w0) = Some cw → IsDone cw = true →
  fresh_callback g w →
  registers g (length (instances w0)) l = true →
  never_registers g sched →
  run w (l :: sched) = Some w' →
  g ∉ map snd (log w').
Proof.
  intros Hr0 Hc Hrun Hno Ha Hd (Hflog&Hfpend&Hfreg) Hreg Hnr Hrun'.
  assert (Hwf0 := reachable_wf _ _ Hr0).
  assert (Hwf : wf_world w) by by eapply wf_world_run.
  assert (Hg := constructor_run _ _ _ _ Hwf0 Hc Hrun Hno).
  assert (Hread := generation_IsDone_read _ _ _ _ _ _ _ Hg Ha Hd).
  simpl in Hrun'. destruct (step w l) as [w1|] eqn:Hstep; [|done].
  assert (Hlate : too_late g w1).
  { split; [by eapply wf_world_step|]. split; [|split].
    - destruct (step_log _ _ _ Hstep) as [->|(m&a&f&fs&->&_)]; [done|].
      by destruct l0.
    - intros m mon' Hm Hgp.
      destruct (step_pending_source _ _ _ _ _ _ Hstep Hm Hgp)
        as (mon&Hold&_&[Hp|[(_&cw0&Ha0&Hr)|(_&cw0&Ha0&Hr)]]).
      + by apply (Hfpend _ _ Hold).
      + apply (Hfreg _ _ Ha0). unfold registered. rewrite !elem_of_app.
        destruct Hr; auto.
      + apply (Hfreg _ _ Ha0). unfold registered. rewrite !elem_of_app.
        auto.
    - intros a cw' Ha' Hgr m mon' Hm Hcw.
      destruct (step_registered _ _ _ _ _ _ Hstep Ha' Hgr)
        as [(cw0&Hold&Hr&_)|[Hhere|(a0&cw0&->&_)]].
      + by destruct (Hfreg _ _ Hold).
      + assert (a = length (instances w0)) as ->.
        { destruct l as [| |a' [f|]|a' [f|]|a' [f|]| | | | | | | |];
            simpl in Hreg, Hhere; try done;
            apply andb_true_iff in Hreg as [_ Hx];
            apply andb_true_iff in Hhere as [_ Hy];
            apply bool_decide_eq_true in Hx, Hy; congruence. }
        assert (Hl : l ≠ LMonitor m) by (intros ->; done).
        destruct (step_monitor_will_read _ _ _ _ _ Hstep Hm)
          as [Hsame|[(pc&Hmold&Himp)|(_&[Hres'|[Hcons _]])]].
        * by eapply Hread.
        * apply Himp. rewrite Hcw in Hmold. by eapply (Hread _ _ Hmold).
        * by destruct l as [| |? [?|]|? [?|]|? [?|]| | | | | | | |].
        * by destruct l as [| |? [?|]|? [?|]|? [?|]| | | | | | | |].
      + done. }
  by destruct (too_late_run _ _ _ _ Hlate Hrun' Hnr) as (_&?&_).
Qed.

Lemma fresh_callback_world_canceled : fresh_callback 9 world_canceled.
Proof.
  split; [|split].
  - intros H. apply elem_of_cons in H as [H|H]; [discriminate H|].
    by apply elem_of_nil in H.
  - intros [|m] mon Hm; [|done]. injection Hm as <-.
    by intros ?%elem_of_nil.
  - intros [|a] cw Ha; [|done]. injection Ha as <-.
    intros H. repeat (apply elem_of_cons in H as [H|H]; [discriminate H|]).
    by apply elem_of_nil in H.
Qed.

Lemma late_registration_never_called_witness :
  9 ∉ map snd (log (the_world (run world_canceled
        [LOnCancel 0 (Some 9); LCancel 0;
         LReset 0 Background; LMonitor 1; LMonitor 1; LCancel 0;
         LMonitor 1; LMonitor 1; LMonitor 1; LMonitor 1; LMonitor 1]))).
Proof.
  apply (late_registration_never_called []
           (tail scenario_registered ++ LCancelWithWait 0 :: scenario_wait)
           [LCancel 0;
            LReset 0 Background; LMonitor 1; LMonitor 1; LCancel 0;
            LMonitor 1; LMonitor 1; LMonitor 1; LMonitor 1; LMonitor 1]
           empty_world world_canceled _
           (LNewContextWithCancel Background) (LOnCancel 0 (Some 9))
           instance_canceled 9).
  - reflexivity.
  - reflexivity.
  - reflexivity.
  - reflexivity.
  - reflexivity.
  - reflexivity.
  - apply fresh_callback_world_canceled.
  - reflexivity.
  - reflexivity.
  - reflexivity.
Defined.

(** ** A nil callback in main.go *)

(** In main.go a registration of nil is stored like any other, and the
    dispatch loop of the monitor panics when it comes to it: the callbacks
    registered before it have been called, in order, those registered
    after it are not called.  Without a nil in the registry every callback
    is called, once and in order, and nothing panics. *)
Theorem Draft_nil_callback_panics (fs gs : list callback)
    (r : DraftRegistry.registry) :
  DraftRegistry.dispatch
    (DraftRegistry.OnCancel (map Some fs) None ++ r) = (fs, true) ∧
  DraftRegistry.dispatch
    (foldl DraftRegistry.OnCancel [] (map Some gs)) = (gs, false).
Proof.
  split.
  - unfold DraftRegistry.OnCancel. rewrite <- app_assoc. simpl.
    induction fs as [|f fs IH]; simpl; [done|]. by rewrite IH.
  - assert (Hfold : ∀ l acc,
      foldl DraftRegistry.OnCancel acc (map Some l) = acc ++ map Some l).
    { induction l as [|x l IH]; intros acc; simpl.
      - by rewrite app_nil_r.
      - rewrite IH. unfold DraftRegistry.OnCancel.
        by rewrite <- app_assoc. }
    rewrite Hfold. simpl.
    induction gs as [|f gs IH]; simpl; [done|]. by rewrite IH.
Qed.

(** ** A wake-up that comes too early *)

Lemma cond_own_step (w w' : World) (l : label) :
  cond_own w → step w l = Some w' → cond_own w'.
Proof.
  intros Hown H. step_inv H.
  assert (Hupd : ∀ a cw x, instances w !! a = Some cw → cond x = cond cw →
            cond_own (set_inst w a x)).
  { intros a cw x Ha Hx a' cw' c Ha' Hc. simpl in Ha'.
    destruct (decide (a = a')) as [<-|Hne].
    - rewrite list_lookup_insert_eq in Ha' by by eapply lookup_lt_Some.
      injection Ha' as <-. rewrite Hx in Hc. by eapply Hown.
    - rewrite list_lookup_insert_ne in Ha' by done. by eapply Hown. }
  assert (Hnew : ∀ x ws, (∀ c, cond x = Some c → c = length (instances w)) →
            instances ws = instances w ++ [x] → cond_own ws).
  { intros x ws Hx Hi a' cw' c Ha' Hc. rewrite Hi in Ha'.
    apply lookup_snoc_Some in Ha' as [[_ Ha']|[-> <-]].
    - by eapply Hown.
    - by apply Hx. }
  assert (Hsame : ∀ w0 ws, cond_own w0 → instances ws = instances w0 →
            cond_own ws).
  { intros w0 ws H0 Hi a' cw' c Ha' Hc. rewrite Hi in Ha'. by eapply H0. }
  destruct l; simpl in H; try on_inst H; try done.
  - injection H as <-. eapply Hnew; [|done]. simpl. congruence.
  - injection H as <-. eapply Hnew; [|done]. simpl. congruence.
  - injection H as <-. eapply Hupd; [done|]. by destruct f.
  - injection H as <-. eapply Hupd; [done|]. by destruct f.
  - injection H as <-. eapply Hupd; [done|]. by destruct f.
  - injection H as <-. by apply (Hsame w).
  - injection H as <-. by apply (Hsame w).
  - injection H as <-. by eapply Hupd.
  - destruct (mu cw0); [done|]. injection H as <-.
    intros a' cw' c Ha' Hc. simpl in Ha'.
    destruct (decide (a = a')) as [<-|Hne].
    + rewrite list_lookup_insert_eq in Ha' by by eapply lookup_lt_Some.
      injection Ha' as <-. simpl in Hc. by eapply Hown.
    + rewrite list_lookup_insert_ne in Ha' by done. by eapply Hown.
  - injection H as <-. eapply Hnew; [|done]. done.
  - unfold monitor_step in H.
    destruct (monitors w !! m) as [[a' pc]|] eqn:Hm0; [|done]. simpl in H.
    destruct (instances w !! a') as [cw0|] eqn:Ha'; [|done].
    destruct pc as [| |t| | ns cbs| |[|f fs]| |]; split_ifs H;
      injection H as <-;
      first [by apply (Hsame w)
            | match goal with
              | |- cond_own (_ (set_inst w ?a ?x) _ _ _) =>
                  apply (Hsame (set_inst w a x)); [by apply (Hupd a cw0)|done]
              end].
  - unfold waiter_step in H.
    destruct (waiters w !! i) as [[a' pc]|] eqn:Hw; [|done]. simpl in H.
    destruct (instances w !! a') as [cw0|] eqn:Ha'; [|done].
    destruct pc; split_ifs H; injection H as <-;
      first [by apply (Hsame w)
            | match goal with
              | |- cond_own (_ (set_inst w ?a ?x) _ _ _) =>
                  apply (Hsame (set_inst w a x)); [by apply (Hupd a cw0)|done]
              end].
  - injection H as <-. by apply (Hsame w).
Qed.

Lemma cond_own_run (sched : list label) (w w' : World) :
  cond_own w → run w sched = Some w' → cond_own w'.
Proof.
  revert w. induction sched as [|l sched IH]; intros w Hown Hrun.
  - by injection Hrun as <-.
  - simpl in Hrun. destruct (step w l) as [w1|] eqn:Hstep; [|done].
    eapply IH; [|done]. by eapply cond_own_step.
Qed.

Lemma hung_waiter_step (a i : nat) (w w' : World) (l : label) :
  hung a i w → step w l = Some w' →
  waiters w' !! i = Some {| w_cw := a; w_pc := WWaiting a |}.
Proof.
  intros (Hw&Halt&Hown&Hmon) H. step_inv H.
  destruct l; simpl in H; try on_inst H; try (by injection H as <-).
  - injection H as <-. simpl. by apply lookup_app_l_Some.
  - destruct (mu cw0); [done|]. by injection H as <-.
  - unfold monitor_step in H.
    destruct (monitors w !! m) as [[a' pc]|] eqn:Hm0; [|done]. simpl in H.
    destruct (instances w !! a') as [cw0|] eqn:Ha'; [|done].
    destruct pc as [| |t| | ns cbs| |[|f fs]| |]; split_ifs H;
      injection H as <-; try done.
    simpl. change (map (wake_one n) (waiters w))
      with (wake_one n <$> waiters w).
    rewrite list_lookup_fmap, Hw. simpl. unfold wake_one; simpl.
    destruct (decide (a = n)) as [<-|Hne]; [|done].
    assert (a = a') as <- by by eapply Hown.
    by specialize (Hmon _ _ Hm0 eq_refl).
  - unfold waiter_step in H.
    destruct (decide (i0 = i)) as [->|Hne].
    + rewrite Hw in H. simpl in H.
      by destruct (instances w !! a).
    + destruct (waiters w !! i0) as [[a' pc]|] eqn:Hw0; [|done]. simpl in H.
      destruct (instances w !! a') as [cw0|] eqn:Ha'; [|done].
      destruct pc; split_ifs H; injection H as <-; simpl; try done;
        by rewrite list_lookup_insert_ne.
Qed.

Lemma hung_step (a i : nat) (w w' : World) (l : label) :
  hung a i w → step w l = Some w' → resets a l = false → hung a i w'.
Proof.
  intros Hh H Hr. split; [by eapply hung_waiter_step|].
  destruct Hh as (Hw&Halt&Hown&Hmon).
  split; [|split; [by eapply cond_own_step|]].
  - destruct (step_instances_length _ _ _ H) as [? _]. lia.
  - intros m mon' Hm' Ha.
    destruct (step_monitor_inv _ _ _ _ _ H Hm')
      as [Hm|[(->&pc&Hm&_)|(_&[Hx|Hx])]].
    + by eapply Hmon.
    + rewrite Ha in Hm. specialize (Hmon _ _ Hm eq_refl). simpl in Hmon.
      subst pc. step_inv H. simpl in H. unfold monitor_step in H.
      rewrite Hm in H. simpl in H. by destruct (instances w !! a).
    + congruence.
    + lia.
Qed.

Lemma hung_run (a i : nat) (sched : list label) (w w' : World) :
  hung a i w → run w sched = Some w' → no_Reset a sched → hung a i w'.
Proof.
  revert w. induction sched as [|l sched IH]; intros w Hh Hrun Hno.
  - by injection Hrun as <-.
  - simpl in Hrun. destruct (step w l) as [w1|] eqn:Hstep; [|done].
    apply no_Reset_cons in Hno as [Hr Hno].
    eapply IH; [|done|done]. by eapply hung_step.
Qed.

Lemma sole_monitor_step (a m : nat) (w w' : World) (l : label) :
  sole_monitor a m w → a < length (instances w) →
  step w l = Some w' → resets a l = false → sole_monitor a m w'.
Proof.
  intros Hsole Halt H Hr m' mon' Hm' Ha.
  destruct (step_attach _ _ _ _ _ H Hm') as [(mon&Hm&Heq)|[[Hx _]|[_ Hx]]].
  - eapply Hsole; [done|]. congruence.
  - congruence.
  - lia.
Qed.

Lemma sole_monitor_run (a m : nat) (sched : list label) (w w' : World) :
  sole_monitor a m w → a < length (instances w) →
  run w sched = Some w' → no_Reset a sched → sole_monitor a m w'.
Proof.
  revert w. induction sched as [|l sched IH]; intros w Hs Halt Hrun Hno.
  - by injection Hrun as <-.
  - simpl in Hrun. destruct (step w l) as [w1|] eqn:Hstep; [|done].
    apply no_Reset_cons in Hno as [Hr Hno].
    eapply IH; [| |done|done].
    + by eapply sole_monitor_step.
    + destruct (step_instances_length _ _ _ Hstep) as [? _]. lia.
Qed.

Lemma constructor_sole_monitor (w w0 : World) (l0 : label) :
  wf_world w → is_constructor l0 = true → step w l0 = Some w0 →
  sole_monitor (length (instances w)) (length (monitors w)) w0.
Proof.
  intros (Hwf&_) Hc H m' mon Hm Ha. rewrite Forall_lookup in Hwf.
  assert (Hmons : monitors w0 = monitors w ++
            [{| m_cw := length (instances w); m_pc := MStart |}]).
  { step_inv H. destruct l0; try done; simpl in H; by injection H as <-. }
  rewrite Hmons in Hm. apply lookup_snoc_Some in Hm as [[_ Hm]|[-> _]].
  - specialize (Hwf _ _ Hm). simpl in Hwf. lia.
  - done.
Qed.

Lemma classify_length (err : option error) (cw : Context) :
  length (snd (classify err cw))
  ≤ length (onDone cw) + length (onCancel cw) + length (onTimeout cw).
Proof.
  unfold classify. destruct (errors_Is err context_Canceled); simpl; [lia|].
  destruct (errors_Is err context_DeadlineExceeded); simpl; lia.
Qed.

(** With the lock free and the token settled, the monitor comes to the end
    of its dispatch loop: the next statement is [cw.done = true]. *)
Lemma monitor_reaches_last (a m t c i : nat) (n : nat) (pc : mpc)
    (w : World) (cw : Context) :
  to_go cw pc ≤ n →
  can_run a m t c i w cw pc → done cw = false →
  (∀ t', pc = MBlocked t' → t' = t) → ¬ past_dispatch pc →
  ∃ k w' cw', run w (replicate k (LMonitor m)) = Some w' ∧
    can_run a m t c i w' cw' (MCalls []) ∧ done cw' = false.
Proof.
  revert pc w cw. induction n as [|n IH]; intros pc w cw Hle Hcan Hd Hbl Hnp.
  - destruct pc as [| |t'| | ns cbs| |[|f fs]| |]; simpl in Hle; try lia.
    + by exists 0, w, cw.
    + destruct Hnp. by left.
    + destruct Hnp. by right.
  - assert (Hnext : ∀ w1 cw1 pc1,
      step w (LMonitor m) = Some w1 →
      can_run a m t c i w1 cw1 pc1 → done cw1 = false →
      to_go cw1 pc1 ≤ n →
      (∀ t', pc1 = MBlocked t' → t' = t) → ¬ past_dispatch pc1 →
      ∃ k w' cw', run w (replicate k (LMonitor m)) = Some w' ∧
        can_run a m t c i w' cw' (MCalls []) ∧ done cw' = false).
    { intros w1 cw1 pc1 Hs Hc1 Hd1 Hle1 Hbl1 Hnp1.
      destruct (IH pc1 w1 cw1 Hle1 Hc1 Hd1 Hbl1 Hnp1) as (k&w'&cw'&Hr&Hx).
      exists (S k), w', cw'. split; [by eapply run_replicate_S|done]. }
    destruct Hcan as (Hcr&Ha&Hmu&Hc&Htok&Hm&Ht&Hw).
    assert (Hs : step w (LMonitor m) = monitor_step w m).
    { unfold step. by rewrite Hcr. }
    assert (Halt : a < length (instances w)) by by eapply lookup_lt_Some.
    assert (Hmlt : m < length (monitors w)) by by eapply lookup_lt_Some.
    unfold monitor_step in Hs. rewrite Hm in Hs. simpl in Hs.
    rewrite Ha in Hs.
    destruct pc as [| |t'| | ns cbs| |[|f fs]| |]; simpl in Hs.
    + rewrite Hmu in Hs.
      eapply (Hnext _ (setState cw Running) MSelect); try done.
      * repeat split; simpl; try done; by apply list_lookup_insert_eq.
      * simpl in *. lia.
      * by intros [?|?].
    + rewrite Htok in Hs.
      eapply (Hnext _ cw (MBlocked t)); try done.
      * repeat split; simpl; try done. by apply list_lookup_insert_eq.
      * simpl in *. lia.
      * congruence.
      * by intros [?|?].
    + rewrite (Hbl t' eq_refl) in Hs. destruct Ht as [e He].
      rewrite He in Hs.
      eapply (Hnext _ cw MClassify); try done.
      * repeat split; simpl; try done. by apply list_lookup_insert_eq.
      * simpl in *. lia.
      * by intros [?|?].
    + rewrite Hmu in Hs.
      destruct (classify (Err w cw) cw) as [ns cbs] eqn:Hcl.
      eapply (Hnext _ cw (MBranch ns cbs)); try done.
      * repeat split; simpl; try done. by apply list_lookup_insert_eq.
      * assert (Hlen := classify_length (Err w cw) cw).
        rewrite Hcl in Hlen. simpl in *. lia.
      * by intros [?|?].
    + rewrite Hmu in Hs.
      destruct (bool_decide (ns ≠ Running)) eqn:Hns.
      * eapply (Hnext _ (setState cw ns) (MCalls cbs)); try done.
        -- repeat split; simpl; try done; by apply list_lookup_insert_eq.
        -- simpl in *. lia.
        -- by intros [?|?].
      * eapply (Hnext _ (setState cw Finished) MRangeOnDone); try done.
        -- repeat split; simpl; try done; by apply list_lookup_insert_eq.
        -- simpl in *. lia.
        -- by intros [?|?].
    + eapply (Hnext _ cw (MCalls (onDone cw))); try done.
      * repeat split; simpl; try done. by apply list_lookup_insert_eq.
      * simpl in *. lia.
      * by intros [?|?].
    + by exists 0, w, cw.
    + eapply (Hnext _ cw (MCalls fs)); try done.
      * repeat split; simpl; try done. by apply list_lookup_insert_eq.
      * simpl in *. lia.
      * by intros [?|?].
    + destruct Hnp. by left.
    + destruct Hnp. by right.
Qed.

Lemma constructor_cond (w w1 : World) (l0 : label) (pre : list label)
    (cw1 : Context) :
  is_constructor l0 = true → run w (l0 :: pre) = Some w1 →
  no_Reset (length (instances w)) pre →
  instances w1 !! length (instances w) = Some cw1 →
  cond cw1 = Some (length (instances w)).
Proof.
  intros Hc Hrun Hno Ha1.
  simpl in Hrun. destruct (step w l0) as [w0|] eqn:Hstep; [|done].
  assert (∃ cw0, instances w0 !! length (instances w) = Some cw0 ∧
                 cond cw0 = Some (length (instances w))) as (cw0&Ha0&Hc0).
  { step_inv Hstep. destruct l0; try done; simpl in Hstep;
      injection Hstep as <-; eexists; (split; [by apply list_lookup_middle|]);
      done. }
  destruct (run_same_core _ _ _ _ _ Ha0 Hrun Hno) as (cw1'&Ha1'&(_&_&Hcc&_)).
  rewrite Ha1 in Ha1'. injection Ha1' as <-. congruence.
Qed.

Lemma constructor_sole_run (w w1 : World) (l0 : label) (pre : list label) :
  wf_world w → is_constructor l0 = true → run w (l0 :: pre) = Some w1 →
  no_Reset (length (instances w)) pre →
  sole_monitor (length (instances w)) (length (monitors w)) w1.
Proof.
  intros Hwf Hc Hrun Hno.
  simpl in Hrun. destruct (step w l0) as [w0|] eqn:Hstep; [|done].
  eapply sole_monitor_run; [|  |done|done].
  - by eapply constructor_sole_monitor.
  - destruct (step_instances_length _ _ _ Hstep) as [_ Hlen].
    rewrite (Hlen Hc). lia.
Qed.

Lemma reachable_cond_own (sched : list label) (w : World) :
  run empty_world sched = Some w → cond_own w.
Proof.
  intros Hrun. eapply cond_own_run; [|done].
  intros a cw c Ha. by destruct a.
Qed.

(** [CancelWithWait] can wait for ever.  For an object made by a
    constructor and not reset whose monitor has not yet set [done], with
    the lock free: there is a schedule in which the call tests [done]
    while it is still false, the monitor then sets [done] and broadcasts
    before the call is on the notify list of [cond.Wait], and the call
    goes to sleep after the only wake-up there will be.  From then on
    [done] is set, the lock is free, nothing has panicked, and whatever
    runs next, short of a [Reset] of the object, the call stays on the
    notify list. *)
Theorem CancelWithWait_can_hang (s0 pre : list label) (w0 w1 : World)
    (l0 : label) (cw1 : Context) :
  run empty_world s0 = Some w0 → is_constructor l0 = true →
  run w0 (l0 :: pre) = Some w1 → no_Reset (length (instances w0)) pre →
  crashed w1 = false →
  instances w1 !! length (instances w0) = Some cw1 →
  mu cw1 = false → done cw1 = false →
  ∃ sched w2 cw2,
    no_Reset (length (instances w0)) sched ∧
    run w1 (LCancelWithWait (length (instances w0)) :: sched) = Some w2 ∧
    crashed w2 = false ∧
    instances w2 !! length (instances w0) = Some cw2 ∧
    done cw2 = true ∧ mu cw2 = false ∧
    ∀ rest w3,
      no_Reset (length (instances w0)) rest → run w2 rest = Some w3 →
      waiters w3 !! length (waiters w1)
        = Some {| w_cw := length (instances w0);
                  w_pc := WWaiting (length (instances w0)) |}.
Proof.
  intros Hr0 Hc Hrun Hno Hcr Ha1 Hmu Hd.
  assert (Hwf0 := reachable_wf _ _ Hr0).
  assert (Hown1 : cond_own w1).
  { eapply cond_own_run; [|done]. by eapply reachable_cond_own. }
  assert (Hsole1 := constructor_sole_run _ _ _ _ Hwf0 Hc Hrun Hno).
  assert (Hcond := constructor_cond _ _ _ _ _ Hc Hrun Hno Ha1).
  destruct (constructor_run _ _ _ _ Hwf0 Hc Hrun Hno) as (Hi&_&_).
  set (a := length (instances w0)) in *.
  set (m := length (monitors w0)) in *.
  set (t := length (tokens w0)) in *.
  set (i := length (waiters w1)).
  destruct Hi as (cw&pc&Ha&Htok&Hcan&Htlt&Hm&Hp&_).
  rewrite Ha1 in Ha. injection Ha as <-.
  assert (Hnp : ¬ past_dispatch pc).
  { intros [-> | ->]; destruct Hp as (?&?&?&?&?); congruence. }
  assert (Hbl : ∀ t', pc = MBlocked t' → t' = t).
  { intros t' ->. by destruct Hp as (->&_). }
  (* the call, up to Cancel *)
  set (w1' := set_waiters (Cancel w1 cw1)
                (waiters w1 ++ [{| w_cw := a; w_pc := WCheck |}])).
  assert (Hs1 : step w1 (LCancelWithWait a) = Some w1').
  { unfold step, on_instance. by rewrite Hcr, Ha1. }
  assert (Ht1 : is_Some (token_Err (tokens w1') t)).
  { simpl. unfold cancel_token. rewrite Hcan.
    destruct (token_Err (tokens w1) t) as [e|] eqn:He.
    - exists e. by apply token_Err_settle_other.
    - eexists. by apply token_Err_settle_fresh. }
  assert (Hcan1 : can_run a m t a i w1' cw1 pc).
  { repeat split; try done. simpl. by apply list_lookup_middle. }
  (* the monitor, up to the end of its loop *)
  destruct (monitor_reaches_last _ _ _ _ _ _ _ _ _ (le_n _) Hcan1 Hd Hbl Hnp)
    as (k&w2&cw2&Hrun2&(Hcr2&Ha2&Hmu2&Hc2&Htok2&Hm2&Ht2&Hw2)&Hd2).
  assert (Halt : a < length (instances w2)) by by eapply lookup_lt_Some.
  assert (Hmlt : m < length (monitors w2)) by by eapply lookup_lt_Some.
  assert (Hilt : i < length (waiters w2)) by by eapply lookup_lt_Some.
  (* the call tests done and enters Wait; the monitor sets done and
     broadcasts; the call puts itself on the notify list *)
  set (x3 := set_mu cw2 true).
  set (W3 := set_waiter (set_inst w2 a x3) i a (WRegister a)).
  set (x4 := set_done x3 true).
  set (W4 := set_mon (set_inst W3 a x4) m a MBroadcast).
  set (W5 := set_mon (Broadcast W4 a) m a MExit).
  set (x6 := set_mu x4 false).
  set (W6 := set_waiter (set_inst W5 a x6) i a (WWaiting a)).
  assert (H3 : step w2 (LWaiter i) = Some W3).
  { unfold step, waiter_step. rewrite Hcr2, Hw2. simpl.
    by rewrite Ha2, Hmu2, Hd2, Hc2. }
  assert (H4 : step W3 (LMonitor m) = Some W4).
  { unfold step, monitor_step. simpl. rewrite Hcr2, Hm2. simpl.
    by rewrite list_lookup_insert_eq. }
  assert (H5 : step W4 (LMonitor m) = Some W5).
  { unfold step, monitor_step. simpl. rewrite Hcr2.
    rewrite list_lookup_insert_eq by done. simpl.
    rewrite list_lookup_insert_eq by by rewrite length_insert.
    simpl. by rewrite Hc2. }
  assert (Hw5 : waiters W5 !! i = Some {| w_cw := a; w_pc := WRegister a |}).
  { simpl. change (map (wake_one a) ?l) with (wake_one a <$> l).
    rewrite list_lookup_fmap.
    by rewrite list_lookup_insert_eq. }
  assert (Ha5 : instances W5 !! a = Some x4).
  { simpl. apply list_lookup_insert_eq. by rewrite length_insert. }
  assert (H6 : step W5 (LWaiter i) = Some W6).
  { unfold step, waiter_step. rewrite Hw5.
    change (crashed W5) with (crashed w2). rewrite Hcr2.
    cbn [w_cw w_pc]. by rewrite Ha5. }
  set (sched := replicate k (LMonitor m)
                ++ [LWaiter i; LMonitor m; LMonitor m; LWaiter i]).
  assert (Hnos : no_Reset a sched).
  { apply no_Reset_app; [apply no_Reset_replicate_Monitor|done]. }
  assert (Hrun6 : run w1 (LCancelWithWait a :: sched) = Some W6).
  { simpl. rewrite Hs1. unfold sched. rewrite run_app, Hrun2.
    cbn [run]. by rewrite H3, H4, H5, H6. }
  assert (Hh : hung a i W6).
  { split; [|split; [|split]].
    - simpl. apply list_lookup_insert_eq.
      rewrite length_map, length_insert. done.
    - simpl. by rewrite !length_insert.
    - by eapply cond_own_run.
    - intros m' mon Hm' Hcw.
      assert (m' = m) as ->.
      { assert (Hnoall : no_Reset a (LCancelWithWait a :: sched)).
        { by apply no_Reset_cons. }
        eapply (sole_monitor_run a m _ w1 W6 Hsole1); try done.
        by eapply lookup_lt_Some. }
      simpl in Hm'.
      rewrite list_lookup_insert_eq in Hm' by by rewrite length_insert.
      by injection Hm' as <-. }
  exists sched, W6, x6.
  split; [done|]. split; [done|]. split; [done|].
  split.
  { simpl. apply list_lookup_insert_eq. by rewrite !length_insert. }
  split; [done|]. split; [done|].
  intros rest w3 Hnor Hrunr.
  by destruct (hung_run _ _ _ _ _ Hh Hrunr Hnor) as (?&_).
Qed.

Lemma CancelWithWait_can_hang_witness :
  ∃ sched w2 cw2,
    no_Reset 0 sched ∧
    run world_registered (LCancelWithWait 0 :: sched) = Some w2 ∧
    crashed w2 = false ∧
    instances w2 !! 0 = Some cw2 ∧
    done cw2 = true ∧ mu cw2 = false ∧
    ∀ rest w3,
      no_Reset 0 rest → run w2 rest = Some w3 →
      waiters w3 !! 0 = Some {| w_cw := 0; w_pc := WWaiting 0 |}.
Proof.
  apply (CancelWithWait_can_hang [] (tail scenario_registered) empty_world
           world_registered (LNewContextWithCancel Background)
           instance_registered).
  - reflexivity.
  - reflexivity.
  - reflexivity.
  - reflexivity.
  - reflexivity.
  - reflexivity.
  - reflexivity.
  - reflexivity.
Defined.
